(** * tidb_vector_python: the column-definition parser and the DSPy retriever

    Two pieces of the repository are covered.

    - [Utils]: [extract_info_from_column_definition] of
      [tidb_vector.integrations.utils], which reads the dimension and the
      distance metric out of a rendered vector column type.
    - [DspyDemo]: [TidbRM.forward] of [examples/dspy-demo/utils.py], the
      retriever that embeds a query, asks the vector client for neighbours and
      ranks the returned documents.

    Python strings are lists of characters, [None] is [option], an exception
    is the [Raises] outcome, and a call runs in the monad [Py W] that threads
    a world [W] (whatever a call could read or write besides its arguments). *)

From Stdlib Require Import String Ascii List NArith ZArith QArith Bool Lia.
From Stdlib Require Import DecimalString DecimalN.
From Stdlib Require Import Sorting.Sorted Sorting.Permutation.
Import ListNotations.

Close Scope Q_scope.
Local Open Scope list_scope.

(** ** Python values and calls *)

Definition str : Type := list ascii.

(** A string literal of the source. *)
Definition lit (s : string) : str := list_ascii_of_string s.

Inductive exn : Set :=
| ValueError
| TypeError.

Inductive outcome (A : Type) : Type :=
| Returns (a : A)
| Raises (e : exn).

Arguments Returns {A} a.
Arguments Raises {A} e.

(** A call: from the world before it to its outcome and the world after. *)
Definition Py (W A : Type) : Type := W -> outcome A * W.

Definition ret {W A : Type} (a : A) : Py W A :=
  fun w => (Returns a, w).

Definition raise {W A : Type} (e : exn) : Py W A :=
  fun w => (Raises e, w).

Definition bind {W A B : Type} (m : Py W A) (k : A -> Py W B) : Py W B :=
  fun w =>
    match m w with
    | (Returns a, w') => k a w'
    | (Raises e, w') => (Raises e, w')
    end.

Notation "x <- m ;; k" := (bind m (fun x => k))
  (at level 61, m at next level, right associativity).

(** ** tidb_vector.integrations.utils *)

Module Utils.

(** *** Characters *)

Definition is_digit (c : ascii) : bool :=
  let n := N_of_ascii c in (48 <=? n)%N && (n <=? 57)%N.

Definition is_upper (c : ascii) : bool :=
  let n := N_of_ascii c in (65 <=? n)%N && (n <=? 90)%N.

Definition is_lower (c : ascii) : bool :=
  let n := N_of_ascii c in (97 <=? n)%N && (n <=? 122)%N.

(** A character of a name: a letter, a digit or the underscore. *)
Definition is_word (c : ascii) : bool :=
  is_upper c || is_lower c || is_digit c || Ascii.eqb c "_".

Definition squote : ascii := "'".
Definition dquote : ascii := Eval cbv in ascii_of_nat 34.

Definition is_quote (c : ascii) : bool :=
  Ascii.eqb c squote || Ascii.eqb c dquote.

Definition upper (c : ascii) : ascii :=
  if is_lower c then ascii_of_N (N_of_ascii c - 32) else c.

(** Equality of two strings up to the case of their letters. *)
Fixpoint ci_eqb (a b : str) : bool :=
  match a, b with
  | [], [] => true
  | x :: a', y :: b' => Ascii.eqb (upper x) (upper y) && ci_eqb a' b'
  | _, _ => false
  end.

(** *** Scanning *)

(** [strip_prefix p s] is what follows [p] in [s], when [s] starts with [p]. *)
Fixpoint strip_prefix (p s : str) : option str :=
  match p with
  | [] => Some s
  | a :: p' =>
      match s with
      | b :: s' => if Ascii.eqb a b then strip_prefix p' s' else None
      | [] => None
      end
  end.

(** The longest prefix of [s] whose characters satisfy [f], and the rest. *)
Fixpoint span (f : ascii -> bool) (s : str) : str * str :=
  match s with
  | c :: s' =>
      if f c then let (run, rest) := span f s' in (c :: run, rest)
      else ([], s)
  | [] => ([], [])
  end.

(** Leftmost search: the result of [at_] at the first position of [s] where
    it succeeds. *)
Fixpoint search {A : Type} (at_ : str -> option A) (s : str) : option A :=
  match at_ s with
  | Some a => Some a
  | None =>
      match s with
      | [] => None
      | _ :: s' => search at_ s'
      end
  end.

(** *** The three patterns *)

Definition VECTOR_FLOAT : str := Eval cbv in lit "VECTOR<FLOAT>".
Definition COMMENT : str := Eval cbv in lit "COMMENT".
Definition DISTANCE_EQ : str := Eval cbv in lit "distance=".
Definition LPAREN : ascii := "(".
Definition RPAREN : ascii := ")".
Definition SPACE : ascii := " ".

(** Modelled from the spec: the dimension pattern of
    [extract_info_from_column_definition] (tidb_vector/integrations/utils.py
    is not among the sources). Step 1 of the algorithm: a parenthesized
    integer immediately following the vector-type token, [(<digits>)], the
    group holding digits only and at least one. The result is the digit
    run. *)
Definition dimension_at (s : str) : option str :=
  match strip_prefix VECTOR_FLOAT s with
  | Some (c :: r) =>
      if Ascii.eqb c LPAREN then
        match span is_digit r with
        | (d :: ds, c' :: _) =>
            if Ascii.eqb c' RPAREN then Some (d :: ds) else None
        | _ => None
        end
      else None
  | _ => None
  end.

(** Modelled from the spec: the comment pattern of
    [extract_info_from_column_definition]. Step 2 of the algorithm and the
    grammar of section 6: the keyword [COMMENT] in any case, one space, and
    the comment text in single quotes or in double quotes. The text runs
    from the opening quote to the next quote of the same kind. The result
    is the comment text. *)
Definition comment_at (s : str) : option str :=
  let kw := firstn 7 s in
  if ci_eqb kw COMMENT then
    match skipn 7 s with
    | sp :: q :: r =>
        if Ascii.eqb sp SPACE && is_quote q then
          match span (fun c => negb (Ascii.eqb c q)) r with
          | (body, _ :: _) => Some body
          | (_, []) => None
          end
        else None
    | _ => None
    end
  else None.

(** Modelled from the spec: the index-specification pattern of
    [extract_info_from_column_definition]. Step 3, first form:
    [<index_type>(distance=<metric>)], the index type and the metric being
    names. The result is the metric. *)
Definition index_spec_at (s : str) : option str :=
  match span is_word s with
  | (_ :: _, c :: r) =>
      if Ascii.eqb c LPAREN then
        match strip_prefix DISTANCE_EQ r with
        | Some r' =>
            match span is_word r' with
            | (m :: ms, c' :: _) =>
                if Ascii.eqb c' RPAREN then Some (m :: ms) else None
            | _ => None
            end
        | None => None
        end
      else None
  | _ => None
  end.

(** Modelled from the spec: the bare pattern of
    [extract_info_from_column_definition]. Step 3, second form:
    [distance=<metric>], the metric being a name, taken whole. *)
Definition bare_at (s : str) : option str :=
  match strip_prefix DISTANCE_EQ s with
  | Some r =>
      match span is_word r with
      | (m :: ms, _) => Some (m :: ms)
      | _ => None
      end
  | None => None
  end.

(** *** The parser *)

(** The default of [sys.get_int_max_str_digits()]: [int] refuses a literal
    with more digits, leading zeros counted. *)
Definition int_max_str_digits : N := 4300%N.

(** Python's [int] on a string. It raises [ValueError] on the empty string,
    on a literal of more than [int_max_str_digits] digits and on a
    character that is no digit. (Signs, blanks and underscores, which [int]
    also reads, never reach it from the parser and are not modelled.) *)
Definition int_ {W : Type} (ds : str) : Py W N :=
  match ds with
  | [] => raise ValueError
  | _ :: _ =>
      if (int_max_str_digits <? N.of_nat (length ds))%N then raise ValueError
      else
        match NilEmpty.uint_of_string (string_of_list_ascii ds) with
        | Some u => ret (N.of_uint u)
        | None => raise ValueError
        end
  end.

(** Modelled from the spec: the distance metric named by a comment text
    (step 3 with its precedence rule): the index-specification form is
    searched first, the bare form only when the first search finds nothing;
    each search takes its leftmost match. *)
Definition metric_of_comment (body : str) : option str :=
  match search index_spec_at body with
  | Some m => Some m
  | None => search bare_at body
  end.

Definition comment_clause (column_type : str) : option str :=
  search comment_at column_type.

Definition dimension_group (column_type : str) : option str :=
  search dimension_at column_type.

(** Modelled from the spec: [extract_info_from_column_definition] of
    tidb_vector/integrations/utils.py, which is not among the sources; only
    its test is. Section 4.1: the dimension is searched and converted with
    [int]; the comment clause is searched, and the metric is read from its
    text; a field that is not found is [None]. *)
Definition extract_info_from_column_definition {W : Type} (column_type : str)
  : Py W (option N * option str) :=
  dimension <-
    match dimension_group column_type with
    | Some ds => (n <- int_ ds ;; ret (Some n))
    | None => ret None
    end ;;
  let distance_metric :=
    match comment_clause column_type with
    | Some body => metric_of_comment body
    | None => None
    end in
  ret (dimension, distance_metric).

(** *** What the claims say about an input, in words of the grammar *)

Definition all_digits (ds : str) : Prop := Forall (fun c => is_digit c = true) ds.
Definition all_word (m : str) : Prop := Forall (fun c => is_word c = true) m.

(** [s] holds, right after [pre], the vector type followed by the group
    [(ds)] of one or more digits. *)
Definition DimensionGroup (s pre ds post : str) : Prop :=
  s = pre ++ VECTOR_FLOAT ++ LPAREN :: ds ++ RPAREN :: post
  /\ ds <> [] /\ all_digits ds.

(** [s] holds, right after [pre], the keyword [kw] (COMMENT in some case), a
    space and the text [body] between two quotes [q]. *)
Definition CommentClause (s pre kw : str) (q : ascii) (body post : str) : Prop :=
  s = pre ++ kw ++ SPACE :: q :: body ++ q :: post
  /\ ci_eqb kw COMMENT = true /\ is_quote q = true.

(** [body] holds, right after [a], the fragment [ty(distance=m)]. *)
Definition IndexSpec (body a ty m b : str) : Prop :=
  body = a ++ ty ++ LPAREN :: DISTANCE_EQ ++ m ++ RPAREN :: b
  /\ ty <> [] /\ all_word ty /\ m <> [] /\ all_word m.

Definition ends_name (b : str) : Prop :=
  match b with
  | [] => True
  | c :: _ => is_word c = false
  end.

(** [body] holds, right after [a], the fragment [distance=m], the name [m]
    taken whole. *)
Definition Bare (body a m b : str) : Prop :=
  body = a ++ DISTANCE_EQ ++ m ++ b /\ m <> [] /\ all_word m /\ ends_name b.

Definition lacks (q : ascii) (body : str) : Prop :=
  Forall (fun c => Ascii.eqb c q = false) body.

(** The comment text of [s] is [body]: the first COMMENT clause of [s] holds
    [body] between its quotes, and [body] does not hold that quote. *)
Definition CommentText (s body : str) : Prop :=
  exists pre kw q post,
    CommentClause s pre kw q body post
    /\ lacks q body
    /\ forall pre1 kw1 q1 body1 post1,
        CommentClause s pre1 kw1 q1 body1 post1 ->
        length pre <= length pre1.

(** The value of a decimal literal. *)
Definition literal_value (ds : str) : N :=
  match NilEmpty.uint_of_string (string_of_list_ascii ds) with
  | Some u => N.of_uint u
  | None => 0%N
  end.

(** The decimal literal of a number, without leading zeros. *)
Definition decimal (n : N) : str :=
  list_ascii_of_string (NilEmpty.string_of_uint (N.to_uint n)).

(** The first dimension group of [s] holds the digits [ds]. *)
Definition FirstDimensionGroup (s ds : str) : Prop :=
  exists pre post,
    DimensionGroup s pre ds post
    /\ forall pre' ds' post',
        DimensionGroup s pre' ds' post' -> length pre <= length pre'.

(** The two fields of the result, each computed from its own search. *)
Definition dimension_field (column_type : str) : option N :=
  option_map literal_value (dimension_group column_type).

Definition metric_field (column_type : str) : option str :=
  match comment_clause column_type with
  | Some body => metric_of_comment body
  | None => None
  end.

(** [int] accepts the digit run the parser hands it, if there is one. *)
Definition conversion_returns (column_type : str) : bool :=
  match dimension_group column_type with
  | Some ds => (N.of_nat (length ds) <=? int_max_str_digits)%N
  | None => true
  end.

(** Column types whose dimension is written with more digits than [int]
    reads. *)
Definition column_of_4301_digits : str :=
  VECTOR_FLOAT ++ LPAREN :: repeat "1"%char 4301 ++ [RPAREN].

Definition column_of_4400_digits : str :=
  VECTOR_FLOAT ++ LPAREN :: repeat "9"%char 4400
    ++ lit ") COMMENT 'hnsw(distance=cosine)'".

(** A call in a world of type [unit], for the scenarios of
    tests/integrations/test_utils.py. *)
Definition run (column_type : str) : outcome (option N * option str) :=
  fst (extract_info_from_column_definition column_type tt).

End Utils.

(** ** examples/dspy-demo/utils.py *)

Module DspyDemo.

(** A Python float, as far as the code looks at it, which is through
    comparisons only: a finite number, an infinity, or NaN. Every
    comparison with NaN is false. *)
Inductive float : Type :=
| Num (q : Q)
| PosInf
| NegInf
| NaN.

Definition is_nan (x : float) : bool :=
  match x with
  | NaN => true
  | _ => false
  end.

(** [x < y] *)
Definition flt (x y : float) : bool :=
  match x, y with
  | NaN, _ | _, NaN => false
  | _, NegInf => false
  | NegInf, _ => true
  | PosInf, _ => false
  | _, PosInf => true
  | Num a, Num b => negb (Qle_bool b a)
  end.

(** [x <= y] *)
Definition fle (x y : float) : bool :=
  match x, y with
  | NaN, _ | _, NaN => false
  | NegInf, _ => true
  | _, NegInf => false
  | _, PosInf => true
  | PosInf, _ => false
  | Num a, Num b => Qle_bool a b
  end.

(** [x == y] *)
Definition feq (x y : float) : bool :=
  match x, y with
  | Num a, Num b => Qeq_bool a b
  | PosInf, PosInf => true
  | NegInf, NegInf => true
  | _, _ => false
  end.

(** [Vector = Union[List[float], List[int]]] and [Vectors = List[Vector]]. *)
Definition Vector : Type := list float.

Inductive embeddings : Type :=
| OneVector (v : Vector)
| ManyVectors (vs : list Vector).

(** [Union[str, List[str]]] *)
Inductive query_or_queries : Type :=
| OneQuery (q : str)
| ManyQueries (qs : list str).

(** A result of the vector client, with the attributes [forward] reads. *)
Record QueryResult : Type := mkQueryResult {
  document : str;
  metadata : list (str * str);
  distance : float
}.

(** The vector client is an external collaborator: [answer] is what the
    database returns for a query vector and a count. *)
Record TiDBVectorClient : Type := mkClient {
  answer : embeddings -> Z -> list QueryResult
}.

(** One [query] call received by the client. *)
Record Call : Type := mkCall {
  query_vector : embeddings;
  k : Z
}.

(** The world of the retriever: the calls the client has received, oldest
    first. *)
Definition World : Type := list Call.

Definition query (client : TiDBVectorClient) (qv : embeddings) (n : Z)
  : Py World (list QueryResult) :=
  fun w => (Returns (answer client qv n), w ++ [mkCall qv n]).

Record TidbRM : Type := mkTidbRM {
  tidb_vector_client : TiDBVectorClient;
  embedding_function : option (query_or_queries -> embeddings);
  top_k : Z
}.

(** [__init__(self, tidb_vector_client, embedding_function=None, k=3)]; an
    argument left out is [None] here. *)
Definition TidbRM_init (client : TiDBVectorClient)
    (embedding_function : option (query_or_queries -> embeddings))
    (k : option Z) : TidbRM :=
  mkTidbRM client embedding_function
    (match k with Some n => n | None => 3%Z end).

(** Calling an attribute that may be [None]. *)
Definition call {A B : Type} (f : option (A -> B)) (a : A) : Py World B :=
  match f with
  | Some g => ret (g a)
  | None => raise TypeError
  end.

(** [k or default] on an [Optional[int]]: [None] and [0] are falsy. *)
Definition or_ (k : option Z) (default : Z) : Z :=
  match k with
  | Some n => if (n =? 0)%Z then default else n
  | None => default
  end.

Definition str_eqb (a b : str) : bool :=
  if list_eq_dec ascii_dec a b then true else false.

(** A Python dict from document to distance: its items in insertion order.
    Assigning to a key that is present replaces the value and keeps the
    place. *)
Definition dict : Type := list (str * float).

Fixpoint setitem (d : dict) (key : str) (v : float) : dict :=
  match d with
  | [] => [(key, v)]
  | (key', v') :: d' =>
      if str_eqb key' key then (key', v) :: d'
      else (key', v') :: setitem d' key v
  end.

Record dotdict : Type := mkDotdict { long_text : str }.

Record Prediction : Type := mkPrediction { passages : list dotdict }.

(** The loop of [forward]. (It also rewraps [res.metadata] in a [dotdict],
    which changes no key and no value.) *)
Definition passages_scores (tidb_vector_res : list QueryResult) : dict :=
  fold_left (fun d res => setitem d (document res) (distance res))
    tidb_vector_res [].

(** *** The built-in [sorted] *)

(** [sorted(items, key=lambda x: x[1], reverse=True)] is Python's, not the
    repository's: the code is modelled over any function that keeps what
    Python promises of it. *)
Definition sort_fn : Type := list (str * float) -> list (str * float).

(** Items ranked by score, largest first. *)
Definition by_score_desc (a b : str * float) : Prop :=
  fle (snd b) (snd a) = true.

(** The item has the score [d]. *)
Definition score_is (d : float) (x : str * float) : bool := feq (snd x) d.

(** No score is NaN. *)
Definition no_nan (l : list (str * float)) : Prop :=
  Forall (fun x => is_nan (snd x) = false) l.

(** What Python promises: the result holds the items of the argument, each
    as often; and when the keys can be ordered, that is when none is NaN,
    the result is in descending order and stable (items of equal key keep
    their order). With a NaN among the keys the order is whatever the
    algorithm leaves. *)
Record SortedContract (sorted : sort_fn) : Prop := mkSortedContract {
  sorted_permutes : forall l, Permutation (sorted l) l;
  sorted_orders :
    forall l, no_nan l -> StronglySorted by_score_desc (sorted l);
  sorted_is_stable :
    forall l, no_nan l ->
    forall d, filter (score_is d) (sorted l) = filter (score_is d) l
}.

(** A sort that keeps the contract, for the examples: insertion from the
    right, an item passing those of greater key only. *)
Fixpoint insert_desc (x : str * float) (l : list (str * float))
  : list (str * float) :=
  match l with
  | [] => [x]
  | y :: l' =>
      if flt (snd x) (snd y) then y :: insert_desc x l'
      else x :: l
  end.

Definition sorted_reverse : sort_fn := fold_right insert_desc [].

(** *** [TidbRM.forward] *)

Section Builtins.

Variable sorted : sort_fn.

Definition sorted_passages (tidb_vector_res : list QueryResult)
  : list (str * float) :=
  sorted (passages_scores tidb_vector_res).

(** [TidbRM.forward] *)
Definition forward (self : TidbRM) (query_or_queries : query_or_queries)
    (k : option Z) : Py World Prediction :=
  query_embeddings <- call (embedding_function self) query_or_queries ;;
  let k := or_ k (top_k self) in
  tidb_vector_res <- query (tidb_vector_client self) query_embeddings k ;;
  ret (mkPrediction
         (map (fun x => mkDotdict (fst x)) (sorted_passages tidb_vector_res))).

End Builtins.

(** The distance of the last result whose document is [p]. *)
Definition last_distance (results : list QueryResult) (p : str)
  : option float :=
  option_map distance
    (find (fun res => str_eqb (document res) p) (rev results)).

(** Largest first. *)
Definition descending (l : list float) : Prop :=
  StronglySorted (fun a b => fle b a = true) l.

(** None of the distances by which the documents are ranked is NaN. *)
Definition ranked_without_nan (results : list QueryResult) : Prop :=
  forall p d, last_distance results p = Some d -> is_nan d = false.

(** A client and a retriever for the examples: the database holds three
    rows, two of them with the same text, and returns at most [n] of them. *)
Definition example_rows : list QueryResult :=
  [ mkQueryResult (lit "TiDB is a database") [] (Num (3 # 10));
    mkQueryResult (lit "Vectors are lists") [] (Num (9 # 10));
    mkQueryResult (lit "TiDB is a database") [] (Num (5 # 10)) ].

Definition example_client : TiDBVectorClient :=
  mkClient (fun _ n => firstn (Z.to_nat n) example_rows).

Definition example_embedding (q : query_or_queries) : embeddings :=
  match q with
  | OneQuery _ => OneVector [Num 1; Num 0]
  | ManyQueries qs => ManyVectors (map (fun _ => [Num 1; Num 0]) qs)
  end.

Definition example_rm : TidbRM :=
  TidbRM_init example_client (Some example_embedding) None.

(** *** Words for the order of results and passages *)

(** [a] comes before [b] in [l]. *)
Definition precedes {A : Type} (a b : A) (l : list A) : Prop :=
  exists l1 l2 l3, l = l1 ++ a :: l2 ++ b :: l3.

(** The item the loop of [forward] stores for a result. *)
Definition scored (res : QueryResult) : str * float :=
  (document res, distance res).

(** Results come nearest first: each distance is below the ones after it. *)
Definition nearest_first (results : list QueryResult) : Prop :=
  StronglySorted (fun a b => flt (distance a) (distance b) = true) results.

(** Results come farthest first; equal distances may follow each other. *)
Definition farthest_first (results : list QueryResult) : Prop :=
  StronglySorted (fun a b => fle (distance b) (distance a) = true) results.

(** No two results share a distance. *)
Definition distinct_distances (results : list QueryResult) : Prop :=
  forall a b, In a results -> In b results ->
              feq (distance a) (distance b) = true -> a = b.

(** No result has the distance NaN. *)
Definition without_nan (results : list QueryResult) : Prop :=
  Forall (fun res => is_nan (distance res) = false) results.

(** The texts of a prediction of the retriever. *)
Definition texts (pred : Prediction) : list str :=
  map long_text (passages pred).

(** The rows the client returns to a call of [forward]. *)
Definition results_of (self : TidbRM) (f : query_or_queries -> embeddings)
    (q : query_or_queries) (n : option Z) : list QueryResult :=
  answer (tidb_vector_client self) (f q) (or_ n (top_k self)).

(** Retrievers for more examples: the client returns the given rows
    whatever it is asked. *)
Definition rm_of (rows : list QueryResult) : TidbRM :=
  TidbRM_init (mkClient (fun _ _ => rows)) (Some example_embedding) None.

Definition rows_nearest_first : list QueryResult :=
  [ mkQueryResult (lit "alpha") [] (Num (1 # 10));
    mkQueryResult (lit "beta") [] (Num (4 # 10));
    mkQueryResult (lit "gamma") [] (Num (7 # 10)) ].

Definition rows_with_tie : list QueryResult :=
  [ mkQueryResult (lit "alpha") [] (Num (5 # 10));
    mkQueryResult (lit "beta") [] (Num (9 # 10));
    mkQueryResult (lit "gamma") [] (Num (1 # 2)) ].

Definition rows_with_nan : list QueryResult :=
  [ mkQueryResult (lit "a") [] (Num (1 # 10));
    mkQueryResult (lit "b") [] NaN;
    mkQueryResult (lit "c") [] (Num (7 # 10)) ].

Definition example_question : query_or_queries :=
  OneQuery (lit "what is TiDB").

End DspyDemo.

(** ** examples/dspy-demo/utils.py: the RAG module *)

Module RagModule.
Import DspyDemo.

Section Builtins.

Variable sorted : sort_fn.

(** [dspy.Retrieve.__call__] hands its arguments to [forward] (dspy is not
    among the sources); [RAG] calls its retriever with the question alone. *)
Definition Retrieve_call (rm : TidbRM) (question : query_or_queries)
  : Py World DspyDemo.Prediction :=
  DspyDemo.forward sorted rm question None.

(** [RAG]: [retrieve] is the retriever given to [__init__];
    [generate_answer] is the [dspy.ChainOfThought(GenerateAnswer)] module,
    an external collaborator, of whose prediction only [answer] is read. *)
Record RAG : Type := mkRAG {
  retrieve : query_or_queries -> Py World DspyDemo.Prediction;
  generate_answer : list dotdict -> query_or_queries -> Py World str
}.

Definition RAG_init (rm : TidbRM)
    (chain_of_thought : list dotdict -> query_or_queries -> Py World str)
  : RAG :=
  mkRAG (Retrieve_call rm) chain_of_thought.

End Builtins.

(** [dspy.Prediction(context=..., answer=...)] *)
Record Prediction : Type := mkPrediction {
  context : list str;
  answer : str
}.

(** [RAG.forward] *)
Definition forward (self : RAG) (question : query_or_queries)
  : Py World Prediction :=
  retrieved <- retrieve self question ;;
  let context := passages retrieved in
  prediction_answer <- generate_answer self context question ;;
  ret (mkPrediction (map long_text context) prediction_answer).

(** A generator for the examples: it answers with the first passage. *)
Definition example_generator (context : list dotdict) (_ : query_or_queries)
  : Py World str :=
  match context with
  | p :: _ => ret (long_text p)
  | [] => raise ValueError
  end.

End RagModule.

(** ** Facts about the parser *)

Module UtilsFacts.
Import Utils.

(** Walks the offsets to the left of a fragment in a given text: [H] says
    that a pattern matches at offset [n]. *)
Ltac scan_offsets n H :=
  first [ lia
        | destruct n as [|n];
          [ vm_compute in H; discriminate | scan_offsets n H ] ].

(** *** Scanning *)

Lemma strip_prefix_app (p r : str) : strip_prefix p (p ++ r) = Some r.
Proof.
  induction p as [|a p IH]; simpl; [reflexivity|].
  now rewrite Ascii.eqb_refl.
Qed.

Lemma strip_prefix_inv (p s r : str) :
  strip_prefix p s = Some r -> s = p ++ r.
Proof.
  revert s; induction p as [|a p IH]; simpl; intros s H.
  - now injection H.
  - destruct s as [|b s]; [discriminate|].
    destruct (Ascii.eqb a b) eqn:E; [|discriminate].
    apply Ascii.eqb_eq in E; subst b.
    now rewrite (IH _ H).
Qed.

Lemma span_inv (f : ascii -> bool) (s run rest : str) :
  span f s = (run, rest) ->
  s = run ++ rest
  /\ Forall (fun c => f c = true) run
  /\ match rest with [] => True | c :: _ => f c = false end.
Proof.
  revert run rest; induction s as [|c s IH]; simpl; intros run rest H.
  - injection H as <- <-. repeat split; constructor.
  - destruct (f c) eqn:E.
    + destruct (span f s) as [run' rest'] eqn:Es.
      injection H as <- <-.
      destruct (IH _ _ eq_refl) as (-> & Hrun & Hrest).
      repeat split; [constructor|]; assumption.
    + injection H as <- <-. repeat split; [constructor | exact E].
Qed.

Lemma span_app (f : ascii -> bool) (run rest : str) :
  Forall (fun c => f c = true) run ->
  match rest with [] => True | c :: _ => f c = false end ->
  span f (run ++ rest) = (run, rest).
Proof.
  intros Hrun Hrest; induction Hrun as [|c run Hc _ IH]; simpl.
  - destruct rest as [|c rest]; simpl; [reflexivity|now rewrite Hrest].
  - now rewrite Hc, IH.
Qed.

Lemma app_same_length {A : Type} (a a' x y : list A) :
  a ++ x = a' ++ y -> length a = length a' -> x = y.
Proof.
  revert a'; induction a as [|c a IH]; intros [|c' a'] H L;
    simpl in *; try discriminate; [assumption|].
  injection H as _ H. injection L as L. now apply (IH a').
Qed.

Section Search.

Context {A : Type} (at_ : str -> option A).

(** A leftmost search succeeds at a position before which the pattern fails
    everywhere. *)
Lemma search_first (s : str) (a : A) :
  search at_ s = Some a ->
  exists pre suf,
    s = pre ++ suf /\ at_ suf = Some a
    /\ forall pre' suf',
        s = pre' ++ suf' -> length pre' < length pre -> at_ suf' = None.
Proof.
  induction s as [|c s IH]; simpl; intros H.
  - destruct (at_ []) eqn:E; [|discriminate].
    exists [], []. repeat split; [congruence|]. simpl; intros; lia.
  - destruct (at_ (c :: s)) eqn:E.
    + exists [], (c :: s). repeat split; [congruence|]. simpl; intros; lia.
    + destruct (IH H) as (pre & suf & -> & Hat & Hmin).
      exists (c :: pre), suf. repeat split; [assumption|].
      intros [|c' pre'] suf' Heq Hlen; simpl in *.
      * now subst suf'.
      * injection Heq as <- Heq. apply (Hmin pre'); [assumption|lia].
Qed.

Lemma search_none (pre suf : str) :
  search at_ (pre ++ suf) = None -> at_ suf = None.
Proof.
  induction pre as [|c pre IH]; simpl.
  - destruct suf; simpl; destruct (at_ _); congruence.
  - destruct (at_ (c :: pre ++ suf)); [discriminate|exact IH].
Qed.

Lemma search_found (pre suf : str) (a : A) :
  at_ suf = Some a -> exists a', search at_ (pre ++ suf) = Some a'.
Proof.
  intros H. destruct (search at_ (pre ++ suf)) as [a'|] eqn:E.
  - now exists a'.
  - apply search_none in E. congruence.
Qed.

(** The shape shared by the claims about a leftmost match: a match at [pre],
    every match further left giving the same result up to [f]. *)
Lemma search_leftmost {B : Type} (f : A -> B) (pre suf : str) (a : A) :
  at_ suf = Some a ->
  (forall pre' suf' a',
      pre ++ suf = pre' ++ suf' -> length pre' < length pre ->
      at_ suf' = Some a' -> f a' = f a) ->
  option_map f (search at_ (pre ++ suf)) = Some (f a).
Proof.
  intros Hat Hleft.
  destruct (search_found pre suf a Hat) as [a' Hs].
  rewrite Hs; simpl; f_equal.
  destruct (search_first _ _ Hs) as (pre' & suf' & Heq & Hat' & Hmin).
  destruct (Nat.lt_trichotomy (length pre') (length pre)) as [L|[L|L]].
  - now apply (Hleft pre' suf').
  - symmetry in Heq. apply app_same_length in Heq; [|assumption].
    congruence.
  - rewrite (Hmin pre suf eq_refl L) in Hat. discriminate.
Qed.

End Search.

(** *** The patterns, read back as decompositions of the input *)

Lemma rest_nonempty (f : ascii -> bool) (x y run rest : str) (c : ascii) :
  f c = false -> span f (x ++ c :: y) = (run, rest) -> rest <> [].
Proof.
  intros Hc; revert run rest; induction x as [|a x IH]; simpl; intros run rest.
  - rewrite Hc. intros [= <- <-]. discriminate.
  - destruct (f a).
    + destruct (span f (x ++ c :: y)) as [run' rest'] eqn:E.
      intros [= <- <-]. now apply (IH run').
    + intros [= <- <-]. discriminate.
Qed.

Lemma dimension_at_inv (s ds : str) :
  dimension_at s = Some ds -> exists post, DimensionGroup s [] ds post.
Proof.
  unfold dimension_at, DimensionGroup.
  destruct (strip_prefix VECTOR_FLOAT s) as [[|c r]|] eqn:Ep; try discriminate.
  apply strip_prefix_inv in Ep.
  destruct (Ascii.eqb c LPAREN) eqn:Ec; [|discriminate].
  apply Ascii.eqb_eq in Ec.
  destruct (span is_digit r) as [[|d run] [|c' rest]] eqn:Es; try discriminate.
  destruct (Ascii.eqb c' RPAREN) eqn:Ec'; [|discriminate].
  apply Ascii.eqb_eq in Ec'. intros [= <-].
  destruct (span_inv _ _ _ _ Es) as (-> & Hrun & _).
  exists rest. subst. repeat split; [discriminate|exact Hrun].
Qed.

Lemma dimension_at_app (ds post : str) :
  ds <> [] -> all_digits ds ->
  dimension_at (VECTOR_FLOAT ++ LPAREN :: ds ++ RPAREN :: post) = Some ds.
Proof.
  intros Hne Hds. unfold dimension_at.
  rewrite strip_prefix_app, Ascii.eqb_refl.
  rewrite (span_app is_digit ds (RPAREN :: post) Hds eq_refl).
  destruct ds; [congruence|]. now rewrite Ascii.eqb_refl.
Qed.

Lemma ci_eqb_length (a b : str) : ci_eqb a b = true -> length a = length b.
Proof.
  revert b; induction a as [|x a IH]; intros [|y b]; simpl; try discriminate;
    [reflexivity|].
  intros H. apply andb_true_iff in H as [_ H]. now rewrite (IH _ H).
Qed.

Lemma firstn_skipn_7 (s : str) : s = firstn 7 s ++ skipn 7 s.
Proof. symmetry. apply firstn_skipn. Qed.

Lemma comment_at_inv (s body : str) :
  comment_at s = Some body ->
  exists kw q post, CommentClause s [] kw q body post /\ lacks q body.
Proof.
  unfold comment_at, CommentClause.
  destruct (ci_eqb (firstn 7 s) COMMENT) eqn:Ekw; [|discriminate].
  destruct (skipn 7 s) as [|sp [|q r]] eqn:Esk; try discriminate.
  destruct (Ascii.eqb sp SPACE) eqn:Esp; [|discriminate].
  apply Ascii.eqb_eq in Esp; subst sp. simpl.
  destruct (is_quote q) eqn:Eq; [|discriminate].
  destruct (span (fun c => negb (Ascii.eqb c q)) r) as [run [|q' post]] eqn:Es;
    [discriminate|].
  intros [= <-].
  destruct (span_inv _ _ _ _ Es) as (-> & Hrun & Hq').
  apply negb_false_iff, Ascii.eqb_eq in Hq'; subst q'.
  exists (firstn 7 s), q, post. repeat split; try assumption.
  - rewrite (firstn_skipn_7 s) at 1. now rewrite Esk.
  - eapply Forall_impl; [|exact Hrun]. simpl. intros c. apply negb_true_iff.
Qed.

Lemma comment_at_app (kw : str) (q : ascii) (body post : str) :
  ci_eqb kw COMMENT = true -> is_quote q = true ->
  exists body', comment_at (kw ++ SPACE :: q :: body ++ q :: post) = Some body'.
Proof.
  intros Hkw Hq. unfold comment_at.
  pose proof (ci_eqb_length _ _ Hkw) as L. change (length COMMENT) with 7 in L.
  rewrite firstn_app, <- L, Nat.sub_diag, firstn_all. simpl firstn.
  rewrite app_nil_r, Hkw.
  rewrite skipn_app, Nat.sub_diag, skipn_all. simpl.
  rewrite Hq.
  destruct (span (fun c => negb (Ascii.eqb c q)) (body ++ q :: post))
    as [run rest] eqn:Es.
  assert (rest <> []) as Hne.
  { eapply rest_nonempty; [|exact Es]. simpl. now rewrite Ascii.eqb_refl. }
  destruct rest; [congruence|]. now exists run.
Qed.

Lemma comment_at_exact (kw : str) (q : ascii) (body post : str) :
  ci_eqb kw COMMENT = true -> is_quote q = true -> lacks q body ->
  comment_at (kw ++ SPACE :: q :: body ++ q :: post) = Some body.
Proof.
  intros Hkw Hq Hbody. unfold comment_at.
  pose proof (ci_eqb_length _ _ Hkw) as L. change (length COMMENT) with 7 in L.
  rewrite firstn_app, <- L, Nat.sub_diag, firstn_all. simpl firstn.
  rewrite app_nil_r, Hkw.
  rewrite skipn_app, Nat.sub_diag, skipn_all. simpl.
  rewrite Hq.
  rewrite (span_app (fun c => negb (Ascii.eqb c q)) body (q :: post)).
  - reflexivity.
  - eapply Forall_impl; [|exact Hbody]. simpl. now intros c ->.
  - simpl. now rewrite Ascii.eqb_refl.
Qed.

Lemma index_spec_at_inv (s m : str) :
  index_spec_at s = Some m -> exists ty b, IndexSpec s [] ty m b.
Proof.
  unfold index_spec_at, IndexSpec.
  destruct (span is_word s) as [[|t ty] [|c r]] eqn:Et; try discriminate.
  destruct (Ascii.eqb c LPAREN) eqn:Ec; [|discriminate].
  apply Ascii.eqb_eq in Ec; subst c.
  destruct (strip_prefix DISTANCE_EQ r) as [r'|] eqn:Ep; [|discriminate].
  apply strip_prefix_inv in Ep; subst r.
  destruct (span is_word r') as [[|x ms] [|c' b]] eqn:Em; try discriminate.
  destruct (Ascii.eqb c' RPAREN) eqn:Ec'; [|discriminate].
  apply Ascii.eqb_eq in Ec'; subst c'. intros [= <-].
  destruct (span_inv _ _ _ _ Et) as (-> & Hty & _).
  destruct (span_inv _ _ _ _ Em) as (-> & Hm & _).
  exists (t :: ty), b. repeat split; try discriminate; assumption.
Qed.

Lemma index_spec_at_app (ty m b : str) :
  ty <> [] -> all_word ty -> m <> [] -> all_word m ->
  index_spec_at (ty ++ LPAREN :: DISTANCE_EQ ++ m ++ RPAREN :: b) = Some m.
Proof.
  intros Hty Wty Hm Wm. unfold index_spec_at.
  rewrite (span_app is_word ty (LPAREN :: DISTANCE_EQ ++ m ++ RPAREN :: b) Wty eq_refl).
  destruct ty; [congruence|]. rewrite Ascii.eqb_refl, strip_prefix_app.
  rewrite (span_app is_word m (RPAREN :: b) Wm eq_refl).
  destruct m; [congruence|]. now rewrite Ascii.eqb_refl.
Qed.

Lemma bare_at_inv (s m : str) :
  bare_at s = Some m -> exists b, Bare s [] m b.
Proof.
  unfold bare_at, Bare.
  destruct (strip_prefix DISTANCE_EQ s) as [r|] eqn:Ep; [|discriminate].
  apply strip_prefix_inv in Ep; subst s.
  destruct (span is_word r) as [[|x ms] b] eqn:Em; [discriminate|].
  intros [= <-].
  destruct (span_inv _ _ _ _ Em) as (-> & Hm & Hb).
  exists b. repeat split; try discriminate; assumption.
Qed.

Lemma bare_at_app (m b : str) :
  m <> [] -> all_word m -> ends_name b ->
  bare_at (DISTANCE_EQ ++ m ++ b) = Some m.
Proof.
  intros Hm Wm Hb. unfold bare_at.
  rewrite strip_prefix_app, (span_app is_word m b Wm Hb).
  destruct m; [congruence|reflexivity].
Qed.

(** *** The whole parser *)

Lemma digit_reads (c : ascii) (d : Decimal.uint) :
  is_digit c = true -> exists d', uint_of_char c (Some d) = Some d'.
Proof.
  destruct c as [[] [] [] [] [] [] [] []]; intros H;
    try discriminate H; eexists; reflexivity.
Qed.

Lemma digits_read (ds : str) :
  all_digits ds ->
  exists u, NilEmpty.uint_of_string (string_of_list_ascii ds) = Some u.
Proof.
  induction 1 as [|c ds Hc _ [u IH]]; simpl.
  - now exists Decimal.Nil.
  - rewrite IH. now apply digit_reads.
Qed.

(** [int] returns on a digit run within its limit, and raises beyond. *)
Lemma int_returns {W : Type} (w : W) (ds : str) :
  ds <> [] -> all_digits ds ->
  (N.of_nat (length ds) <= int_max_str_digits)%N ->
  int_ ds w = (Returns (literal_value ds), w).
Proof.
  intros Hne Hds Hlen. unfold int_, literal_value.
  destruct ds; [congruence|].
  destruct (N.ltb_spec int_max_str_digits (N.of_nat (length (a :: ds))));
    [lia|].
  destruct (digits_read _ Hds) as [u ->]. reflexivity.
Qed.

Lemma int_raises {W : Type} (w : W) (ds : str) :
  (int_max_str_digits < N.of_nat (length ds))%N ->
  int_ ds w = (Raises ValueError, w).
Proof.
  intros Hlen. unfold int_. destruct ds; [reflexivity|].
  destruct (N.ltb_spec int_max_str_digits (N.of_nat (length (a :: ds))));
    [reflexivity|lia].
Qed.

Lemma dimension_group_digits (s ds : str) :
  dimension_group s = Some ds ->
  exists pre post, DimensionGroup s pre ds post.
Proof.
  intros H. destruct (search_first _ _ _ H) as (pre & suf & -> & Hat & _).
  destruct (dimension_at_inv _ _ Hat) as (post & -> & Hne & Hds).
  exists pre, post. now repeat split.
Qed.

(** The call, whole: the two fields when [int] accepts the digit run, the
    [ValueError] of [int] otherwise. *)
Lemma extract_info_eq {W : Type} (w : W) (column_type : str) :
  extract_info_from_column_definition column_type w
  = (if conversion_returns column_type
     then Returns (dimension_field column_type, metric_field column_type)
     else Raises ValueError,
     w).
Proof.
  unfold extract_info_from_column_definition, conversion_returns,
    dimension_field, metric_field, bind.
  destruct (dimension_group column_type) as [ds|] eqn:E; simpl.
  - destruct (dimension_group_digits _ _ E) as (pre & post & _ & Hne & Hds).
    destruct (N.leb_spec (N.of_nat (length ds)) int_max_str_digits) as [L|L].
    + now rewrite (int_returns w ds Hne Hds L).
    + now rewrite (int_raises w ds L).
  - reflexivity.
Qed.

Lemma dimension_group_none (s : str) :
  dimension_group s = None <->
  forall pre ds post, ~ DimensionGroup s pre ds post.
Proof.
  split.
  - intros H pre ds post (-> & Hne & Hds).
    apply search_none in H. now rewrite dimension_at_app in H.
  - intros H. destruct (dimension_group s) as [ds|] eqn:E; [|reflexivity].
    destruct (dimension_group_digits _ _ E) as (pre & post & HG).
    now destruct (H pre ds post).
Qed.

Lemma comment_clause_none (s : str) :
  comment_clause s = None <->
  forall pre kw q body post, ~ CommentClause s pre kw q body post.
Proof.
  split.
  - intros H pre kw q body post (-> & Hkw & Hq).
    apply search_none in H.
    destruct (comment_at_app kw q body post Hkw Hq) as [b Hb].
    congruence.
  - intros H. destruct (comment_clause s) as [body|] eqn:E; [|reflexivity].
    destruct (search_first _ _ _ E) as (pre & suf & -> & Hat & _).
    destruct (comment_at_inv _ _ Hat) as (kw & q & post & (-> & HC) & _).
    destruct (H pre kw q body post). now split.
Qed.

Lemma index_spec_none (body : str) :
  search index_spec_at body = None <->
  forall a ty m b, ~ IndexSpec body a ty m b.
Proof.
  split.
  - intros H a ty m b (-> & Hty & Wty & Hm & Wm).
    apply search_none in H. now rewrite index_spec_at_app in H.
  - intros H. destruct (search index_spec_at body) as [m|] eqn:E; [|reflexivity].
    destruct (search_first _ _ _ E) as (a & suf & -> & Hat & _).
    destruct (index_spec_at_inv _ _ Hat) as (ty & b & -> & HI).
    destruct (H a ty m b). now split.
Qed.



(** The comment text in words of the grammar is the one the search finds. *)
Lemma comment_text_iff (s body : str) :
  CommentText s body <-> comment_clause s = Some body.
Proof.
  split.
  - intros (pre & kw & q & post & (-> & Hkw & Hq) & Hbody & Hleft).
    assert (option_map (fun x => x)
              (comment_clause (pre ++ kw ++ SPACE :: q :: body ++ q :: post))
            = Some body) as S.
    { apply (search_leftmost _ (fun x => x)); [now apply comment_at_exact|].
      intros pre1 suf1 body1 Heq L Hat.
      destruct (comment_at_inv _ _ Hat) as (kw1 & q1 & post1 & (-> & HC) & _).
      assert (length pre <= length pre1); [|lia].
      apply (Hleft pre1 kw1 q1 body1 post1). now split. }
    destruct (comment_clause _); simpl in S; congruence.
  - intros H. destruct (search_first _ _ _ H) as (pre & suf & -> & Hat & Hmin).
    destruct (comment_at_inv _ _ Hat) as (kw & q & post & (-> & HC) & Hlacks).
    exists pre, kw, q, post. repeat split; try apply HC; [exact Hlacks|].
    intros pre1 kw1 q1 body1 post1 (Heq & Hkw1 & Hq1).
    destruct (Nat.le_gt_cases (length pre) (length pre1)) as [L|L];
      [exact L|].
    pose proof (Hmin pre1 _ Heq L) as Hnone.
    destruct (comment_at_app kw1 q1 body1 post1 Hkw1 Hq1).
    congruence.
Qed.


Lemma bare_found (body m : str) :
  search bare_at body = Some m -> exists a b, Bare body a m b.
Proof.
  intros H. destruct (search_first _ _ _ H) as (a & suf & -> & Hat & _).
  destruct (bare_at_inv _ _ Hat) as (b & -> & HB).
  exists a, b. now split.
Qed.

(** Helpers to place a fragment at its offset in a given text. *)
Lemma skipn_length_app (a x : str) : skipn (length a) (a ++ x) = x.
Proof. induction a; simpl; auto. Qed.



Lemma dimension_offset (s pre ds post : str) :
  DimensionGroup s pre ds post ->
  dimension_at (skipn (length pre) s) = Some ds.
Proof.
  intros (-> & Hne & Hds).
  rewrite skipn_length_app. now apply dimension_at_app.
Qed.

Lemma literal_value_decimal (n : N) : literal_value (decimal n) = n.
Proof.
  unfold literal_value, decimal.
  rewrite string_of_list_ascii_of_string, NilEmpty.usu.
  apply DecimalN.Unsigned.of_to.
Qed.

(** *** The scenarios of tests/integrations/test_utils.py *)

Example test_dimension_and_metric :
  run (lit "VECTOR<FLOAT>(128) COMMENT 'hnsw(distance=cosine)'")
  = Returns (Some 128%N, Some (lit "cosine")).
Proof. reflexivity. Qed.

Example test_dimension_no_metric :
  run (lit "VECTOR<FLOAT>(256) COMMENT 'some comment'")
  = Returns (Some 256%N, None).
Proof. reflexivity. Qed.

Example test_no_dimension_no_metric :
  run (lit "VECTOR<FLOAT> COMMENT 'another comment'") = Returns (None, None).
Proof. reflexivity. Qed.

Example test_no_comment :
  run (lit "VECTOR<FLOAT>") = Returns (None, None).
Proof. reflexivity. Qed.

Example test_double_quotes :
  run (lit "VECTOR<FLOAT>(128) COMMENT " ++ dquote :: lit "hnsw(distance=cosine)"
         ++ [dquote])
  = Returns (Some 128%N, Some (lit "cosine")).
Proof. reflexivity. Qed.

Example test_bare_metric :
  run (lit "VECTOR<FLOAT> COMMENT 'distance=l2'")
  = Returns (None, Some (lit "l2")).
Proof. reflexivity. Qed.

Example test_additional_comment_content :
  run (lit "VECTOR<FLOAT>(128) COMMENT 'test, hnsw(distance=l2)'")
  = Returns (Some 128%N, Some (lit "l2")).
Proof. reflexivity. Qed.

(** *** More readings of the searches *)

Lemma bare_none (body : str) :
  search bare_at body = None <-> forall a m b, ~ Bare body a m b.
Proof.
  split.
  - intros H a m b (-> & Hm & Wm & Hb).
    apply search_none in H. now rewrite bare_at_app in H.
  - intros H. destruct (search bare_at body) as [m|] eqn:E; [|reflexivity].
    destruct (bare_found _ _ E) as (a & b & HB).
    now destruct (H a m b).
Qed.

Lemma metric_of_comment_none (body : str) :
  metric_of_comment body = None <->
  (forall a ty m b, ~ IndexSpec body a ty m b)
  /\ (forall a m b, ~ Bare body a m b).
Proof.
  unfold metric_of_comment. rewrite <- index_spec_none, <- bare_none.
  destruct (search index_spec_at body); split.
  - discriminate.
  - intros [H _]. discriminate H.
  - now split.
  - now intros [_ H].
Qed.

(** The first group in words of the grammar is the one the search finds. *)
Lemma first_group_iff (s ds : str) :
  FirstDimensionGroup s ds <-> dimension_group s = Some ds.
Proof.
  split.
  - intros (pre & post & (-> & Hne & Hds) & Hleft).
    assert (option_map (fun x => x)
              (dimension_group
                 (pre ++ VECTOR_FLOAT ++ LPAREN :: ds ++ RPAREN :: post))
            = Some ds) as S.
    { apply (search_leftmost _ (fun x => x)); [now apply dimension_at_app|].
      intros pre1 suf1 ds1 Heq L Hat.
      destruct (dimension_at_inv _ _ Hat) as (post1 & -> & HG).
      assert (length pre <= length pre1); [|lia].
      apply (Hleft pre1 ds1 post1). now split. }
    destruct (dimension_group _); simpl in S; congruence.
  - intros H. destruct (search_first _ _ _ H) as (pre & suf & -> & Hat & Hmin).
    destruct (dimension_at_inv _ _ Hat) as (post & -> & HG).
    exists pre, post. split; [now split|].
    intros pre1 ds1 post1 (Heq & Hne1 & Hds1).
    destruct (Nat.le_gt_cases (length pre) (length pre1)) as [L|L];
      [exact L|].
    pose proof (Hmin pre1 _ Heq L) as Hnone.
    now rewrite dimension_at_app in Hnone.
Qed.

(** A group is shorter than the input that holds it. *)
Lemma dimension_group_short (s pre ds post : str) :
  DimensionGroup s pre ds post ->
  (N.of_nat (length ds) <= N.of_nat (length s))%N.
Proof.
  intros (-> & _). rewrite !length_app. simpl. rewrite length_app. lia.
Qed.

Lemma conversion_returns_iff (s : str) :
  conversion_returns s = true <->
  forall ds, FirstDimensionGroup s ds ->
             (N.of_nat (length ds) <= int_max_str_digits)%N.
Proof.
  unfold conversion_returns. split.
  - intros H ds Hds. apply first_group_iff in Hds. rewrite Hds in H.
    now apply N.leb_le.
  - intros H. destruct (dimension_group s) as [ds|] eqn:E; [|reflexivity].
    apply N.leb_le, H, first_group_iff, E.
Qed.

(** Beyond the limit of [int] the call raises. *)
Lemma extract_info_raises {W : Type} (w : W) (column_type ds : str) :
  FirstDimensionGroup column_type ds ->
  (int_max_str_digits < N.of_nat (length ds))%N ->
  extract_info_from_column_definition column_type w = (Raises ValueError, w).
Proof.
  intros Hds L. rewrite extract_info_eq. apply first_group_iff in Hds.
  unfold conversion_returns. rewrite Hds.
  destruct (N.leb_spec (N.of_nat (length ds)) int_max_str_digits);
    [lia|reflexivity].
Qed.


(** *** The claims *)

(** C1, as amended. For every string whose first dimension group, if it has
    one, is within the digit limit of [int], the call returns and does not
    raise. Each field degrades to [None] on its own: the dimension is
    [None] exactly when the input has no dimension group, the metric is
    [None] exactly when the comment text, if any, holds neither an
    index-specification fragment nor a bare one; an input with neither a
    group nor a comment clause gives [(None, None)]. *)
Theorem extract_info_returns_within_int_limit {W : Type} (w : W)
    (column_type : str) :
  (forall ds, FirstDimensionGroup column_type ds ->
              (N.of_nat (length ds) <= int_max_str_digits)%N) ->
  exists dimension distance_metric,
    extract_info_from_column_definition column_type w
    = (Returns (dimension, distance_metric), w)
    /\ (dimension = None <->
        forall pre ds post, ~ DimensionGroup column_type pre ds post)
    /\ (distance_metric = None <->
        forall body,
          CommentText column_type body ->
          (forall a ty m b, ~ IndexSpec body a ty m b)
          /\ (forall a m b, ~ Bare body a m b))
    /\ ((forall pre ds post, ~ DimensionGroup column_type pre ds post) ->
        (forall pre kw q body post,
            ~ CommentClause column_type pre kw q body post) ->
        (dimension, distance_metric) = (None, None)).
Proof.
  intros Hlimit. apply conversion_returns_iff in Hlimit.
  exists (dimension_field column_type), (metric_field column_type).
  split; [now rewrite extract_info_eq, Hlimit|].
  assert (dimension_field column_type = None <->
          forall pre ds post, ~ DimensionGroup column_type pre ds post) as HD.
  { rewrite <- dimension_group_none. unfold dimension_field.
    destruct (dimension_group column_type); simpl; split; congruence. }
  split; [exact HD|]. split.
  - unfold metric_field. split.
    + intros H body Hb. apply metric_of_comment_none.
      apply comment_text_iff in Hb. now rewrite Hb in H.
    + intros H. destruct (comment_clause column_type) as [body|] eqn:E;
        [|reflexivity].
      apply metric_of_comment_none, H, comment_text_iff, E.
  - intros HnoD HnoC. apply HD in HnoD. apply comment_clause_none in HnoC.
    unfold metric_field. now rewrite HnoD, HnoC.
Qed.

Lemma extract_info_returns_within_int_limit_witness :
  run (lit "VECTOR<FLOAT>(128) COMMENT 'some comment'")
  = Returns (Some 128%N, None)
  /\ run (lit "VARCHAR(12a) COMENT 'x") = Returns (None, None).
Proof.
  unfold run. split.
  - destruct (extract_info_returns_within_int_limit tt
                (lit "VECTOR<FLOAT>(128) COMMENT 'some comment'"))
      as (d & m & Hrun & _).
    + intros ds (pre & post & HG & _).
      apply dimension_group_short in HG. simpl in HG.
      unfold int_max_str_digits. lia.
    + rewrite Hrun. vm_compute in Hrun. injection Hrun as <- <-.
      reflexivity.
  - destruct (extract_info_returns_within_int_limit tt
                (lit "VARCHAR(12a) COMENT 'x"))
      as (d & m & Hrun & _ & _ & Hnone).
    + intros ds (pre & post & HG & _).
      apply dimension_group_short in HG. simpl in HG.
      unfold int_max_str_digits. lia.
    + rewrite Hrun. simpl. f_equal. apply Hnone.
      * apply dimension_group_none. reflexivity.
      * apply comment_clause_none. reflexivity.
Defined.

(** C1, as stated, fails: on a dimension of 4301 digits the call raises the
    [ValueError] of [int]. *)
Lemma extract_info_raises_on_4301_digits :
  run column_of_4301_digits = Raises ValueError.
Proof. vm_compute. reflexivity. Qed.

(** C2, as amended. When the input holds the group [(ds)] of digits right
    after the vector type, within the digit limit of [int] (and no group
    further left that writes another number or exceeds the limit), the
    dimension is the number that [ds] writes, leading zeros allowed; the
    decimal literal of [n] writes [n]. When the input holds no such group,
    as when the parentheses hold something else than digits, the dimension
    is [None]. *)
Theorem dimension_is_the_literal {W : Type} (w : W) (column_type : str) :
  (forall pre ds post,
      DimensionGroup column_type pre ds post ->
      (N.of_nat (length ds) <= int_max_str_digits)%N ->
      (forall pre' ds' post',
          DimensionGroup column_type pre' ds' post' ->
          length pre' < length pre ->
          literal_value ds' = literal_value ds
          /\ (N.of_nat (length ds') <= int_max_str_digits)%N) ->
      extract_info_from_column_definition column_type w
      = (Returns (Some (literal_value ds), metric_field column_type), w))
  /\ ((forall pre ds post, ~ DimensionGroup column_type pre ds post) ->
      extract_info_from_column_definition column_type w
      = (Returns (None, metric_field column_type), w))
  /\ (forall n : N, literal_value (decimal n) = n).
Proof.
  rewrite extract_info_eq. split; [|split].
  - intros pre ds post (-> & Hne & Hds) Hlen Hleft.
    pose (f := fun ds : str =>
                 (literal_value ds,
                  (N.of_nat (length ds) <=? int_max_str_digits)%N)).
    assert (option_map f
              (dimension_group
                 (pre ++ VECTOR_FLOAT ++ LPAREN :: ds ++ RPAREN :: post))
            = Some (f ds)) as S.
    { apply (search_leftmost dimension_at f pre _ ds
               (dimension_at_app ds post Hne Hds)).
      intros pre' suf' ds' Heq L Hat.
      destruct (dimension_at_inv _ _ Hat) as (post' & -> & HG).
      destruct (Hleft pre' ds' post') as [Hv Hl]; [now split|exact L|].
      unfold f. rewrite Hv. f_equal.
      apply N.leb_le in Hl, Hlen. congruence. }
    unfold conversion_returns, dimension_field.
    destruct (dimension_group _) as [ds0|]; simpl in S; [|discriminate].
    injection S as Hv Hl. unfold f in *.
    apply N.leb_le in Hlen. rewrite Hl, Hlen. simpl. now rewrite Hv.
  - intros H. apply dimension_group_none in H.
    unfold conversion_returns, dimension_field. now rewrite H.
  - apply literal_value_decimal.
Qed.

Lemma dimension_is_the_literal_witness :
  run (lit "VECTOR<FLOAT>(128) COMMENT 'hnsw(distance=cosine)'")
  = Returns (Some 128%N, Some (lit "cosine"))
  /\ run (lit "VECTOR<FLOAT> VECTOR<FLOAT>(0256)") = Returns (Some 256%N, None)
  /\ run (lit "VECTOR<FLOAT>(12a) COMMENT 'distance=l2'")
     = Returns (None, Some (lit "l2")).
Proof.
  unfold run. split; [|split].
  - rewrite (proj1 (dimension_is_the_literal tt _)
               [] (lit "128") (lit " COMMENT 'hnsw(distance=cosine)'")).
    + reflexivity.
    + repeat split; [discriminate|]. repeat constructor.
    + vm_compute. discriminate.
    + simpl; intros; lia.
  - rewrite (proj1 (dimension_is_the_literal tt _)
               (lit "VECTOR<FLOAT> ") (lit "0256") []).
    + reflexivity.
    + repeat split; [discriminate|]. repeat constructor.
    + vm_compute. discriminate.
    + intros pre' ds' post' HG L. exfalso.
      apply dimension_offset in HG. simpl in L.
      remember (length pre') as n eqn:E; clear E.
      scan_offsets n HG.
  - rewrite (proj1 (proj2 (dimension_is_the_literal tt _))).
    + reflexivity.
    + apply dimension_group_none. reflexivity.
Defined.

(** C2, as stated, fails: the input holds a group of 4400 digits right
    after the vector type, and the call raises instead of returning the
    number. *)
Lemma dimension_of_4400_digits_raises :
  DimensionGroup column_of_4400_digits [] (repeat "9"%char 4400)
    (lit " COMMENT 'hnsw(distance=cosine)'")
  /\ run column_of_4400_digits = Raises ValueError.
Proof.
  split.
  - repeat split.
    + discriminate.
    + apply Forall_forall. intros c Hc. apply repeat_spec in Hc. now subst.
  - vm_compute. reflexivity.
Qed.









End UtilsFacts.

(** ** Facts about the retriever *)

Module DspyDemoFacts.
Import DspyDemo.

(** *** The order of floats *)

Lemma fle_numbers (x y : float) :
  fle x y = true -> is_nan x = false /\ is_nan y = false.
Proof. destruct x, y; simpl; intros H; try discriminate H; now split. Qed.

Lemma fle_refl (x : float) : is_nan x = false -> fle x x = true.
Proof.
  destruct x; simpl; intros H; try discriminate H; try reflexivity.
  apply Qle_bool_iff, Qle_refl.
Qed.

Lemma fle_trans (x y z : float) :
  fle x y = true -> fle y z = true -> fle x z = true.
Proof.
  destruct x, y, z; simpl; intros H1 H2;
    try discriminate H1; try discriminate H2; try reflexivity.
  apply Qle_bool_iff in H1, H2. apply Qle_bool_iff.
  now apply Qle_trans with q0.
Qed.

Lemma flt_fle (x y : float) : flt x y = true -> fle x y = true.
Proof.
  destruct x, y; simpl; intros H; try discriminate H; try reflexivity.
  apply negb_true_iff in H. apply Qle_bool_iff.
  apply Qlt_le_weak, Qnot_le_lt. rewrite <- Qle_bool_iff. congruence.
Qed.

Lemma not_flt_fle (x y : float) :
  is_nan x = false -> is_nan y = false -> flt x y = false -> fle y x = true.
Proof.
  destruct x, y; simpl; intros Hx Hy H;
    try discriminate Hx; try discriminate Hy; try discriminate H;
    try reflexivity.
  now apply negb_false_iff in H.
Qed.

Lemma fle_not_flt (x y : float) : fle y x = true -> flt x y = false.
Proof.
  destruct x, y; simpl; intros H; try discriminate H; try reflexivity.
  now rewrite H.
Qed.

Lemma feq_fle (x y : float) :
  feq x y = true <-> fle x y = true /\ fle y x = true.
Proof.
  destruct x, y; simpl; split; try (intros [H1 H2]);
    try discriminate; try tauto; try (intros H; discriminate H).
  - intros H. apply Qeq_bool_iff in H.
    split; apply Qle_bool_iff; rewrite H; apply Qle_refl.
  - apply Qle_bool_iff in H1, H2. apply Qeq_bool_iff.
    now apply Qle_antisym.
Qed.

Lemma feq_refl (x : float) : is_nan x = false -> feq x x = true.
Proof. intros H. apply feq_fle. split; now apply fle_refl. Qed.

Lemma feq_sym (x y : float) : feq x y = true -> feq y x = true.
Proof. rewrite !feq_fle. tauto. Qed.

(** Two items of one score do not pass each other. *)
Lemma same_score_not_flt (d x y : float) :
  feq x d = true -> feq y d = true -> flt x y = false.
Proof.
  rewrite !feq_fle. intros [Hx Hx'] [Hy Hy'].
  apply fle_not_flt. now apply fle_trans with d.
Qed.

(** *** The dict of the loop *)

Lemma str_eqb_eq (a b : str) : str_eqb a b = true <-> a = b.
Proof.
  unfold str_eqb. destruct (list_eq_dec ascii_dec a b); split; congruence.
Qed.

Lemma str_eqb_neq (a b : str) : str_eqb a b = false <-> a <> b.
Proof.
  unfold str_eqb. destruct (list_eq_dec ascii_dec a b); split; congruence.
Qed.

Lemma setitem_keys (d : dict) (key : str) (v : float) (p : str) :
  In p (map fst (setitem d key v)) <-> p = key \/ In p (map fst d).
Proof.
  induction d as [|[key' v'] d IH]; simpl.
  - intuition.
  - destruct (str_eqb key' key) eqn:E; simpl.
    + apply str_eqb_eq in E; subst. intuition.
    + rewrite IH. intuition.
Qed.

Lemma setitem_nodup (d : dict) (key : str) (v : float) :
  NoDup (map fst d) -> NoDup (map fst (setitem d key v)).
Proof.
  induction d as [|[key' v'] d IH]; simpl; intros H.
  - repeat constructor. intros [].
  - inversion H as [|? ? Hnot Hd]; subst.
    destruct (str_eqb key' key) eqn:E; simpl.
    + now constructor.
    + constructor; [|now apply IH].
      rewrite setitem_keys. apply str_eqb_neq in E. intuition.
Qed.

Lemma setitem_items (d : dict) (key : str) (v : float) (p : str) (x : float) :
  NoDup (map fst d) ->
  In (p, x) (setitem d key v) <->
  (p = key /\ x = v) \/ (p <> key /\ In (p, x) d).
Proof.
  induction d as [|[key' v'] d IH]; simpl; intros H.
  - split.
    + intros [[= <- <-]|[]]. now left.
    + intros [[-> ->]|[_ []]]. now left.
  - inversion H as [|? ? Hnot Hd]; subst.
    destruct (str_eqb key' key) eqn:E; simpl.
    + apply str_eqb_eq in E; subst key'. split.
      * intros [[= <- <-]|Hin]; [now left|].
        right. split; [|now right].
        intros ->. apply Hnot. now apply (in_map fst) in Hin.
      * intros [[-> ->]|[Hne [[= <- <-]|Hin]]];
          [now left|congruence|now right].
    + apply str_eqb_neq in E. rewrite (IH Hd). split.
      * intros [[= <- <-]|[[-> ->]|[Hne Hin]]];
          [right; split; [exact E|now left] | now left
          | right; split; [exact Hne|now right]].
      * intros [[-> ->]|[Hne [[= <- <-]|Hin]]];
          [right; now left | now left | right; right; now split].
Qed.

Lemma passages_scores_snoc (results : list QueryResult) (res : QueryResult) :
  passages_scores (results ++ [res])
  = setitem (passages_scores results) (document res) (distance res).
Proof. unfold passages_scores. now rewrite fold_left_app. Qed.

Lemma last_distance_snoc (results : list QueryResult) (res : QueryResult)
    (p : str) :
  last_distance (results ++ [res]) p
  = if str_eqb (document res) p then Some (distance res)
    else last_distance results p.
Proof.
  unfold last_distance. rewrite rev_app_distr. simpl.
  now destruct (str_eqb (document res) p).
Qed.

Lemma passages_scores_nodup (results : list QueryResult) :
  NoDup (map fst (passages_scores results)).
Proof.
  induction results as [|res results IH] using rev_ind.
  - constructor.
  - rewrite passages_scores_snoc. now apply setitem_nodup.
Qed.

Lemma passages_scores_keys (results : list QueryResult) (p : str) :
  In p (map fst (passages_scores results)) <->
  exists res, In res results /\ document res = p.
Proof.
  induction results as [|res results IH] using rev_ind.
  - simpl. split; [intros []|intros (? & [] & _)].
  - rewrite passages_scores_snoc, setitem_keys, IH. split.
    + intros [->|(r & Hin & Hr)].
      * exists res. split; [apply in_or_app; right; now left|reflexivity].
      * exists r. split; [apply in_or_app; now left|exact Hr].
    + intros (r & Hin & Hr). apply in_app_or in Hin as [Hin|[->|[]]].
      * right. now exists r.
      * now left.
Qed.

(** The dict holds, for each document, the distance of the last result that
    carries it. *)
Lemma passages_scores_items (results : list QueryResult) (p : str) (x : float) :
  In (p, x) (passages_scores results) <-> last_distance results p = Some x.
Proof.
  revert p x. induction results as [|res results IH] using rev_ind; intros p x.
  - simpl. split; [intros []|discriminate].
  - rewrite passages_scores_snoc, last_distance_snoc.
    rewrite (setitem_items _ _ _ _ _ (passages_scores_nodup results)), IH.
    destruct (str_eqb (document res) p) eqn:E.
    + apply str_eqb_eq in E. split.
      * intros [[_ ->]|[Hne _]]; congruence.
      * intros [= <-]. left. now split.
    + apply str_eqb_neq in E. split.
      * intros [[-> _]|[_ H]]; congruence.
      * intros H. right. split; congruence.
Qed.

(** *** The sort of the examples keeps the contract *)

Lemma insert_desc_perm (x : str * float) (l : list (str * float)) :
  Permutation (insert_desc x l) (x :: l).
Proof.
  induction l as [|y l IH]; simpl; [reflexivity|].
  destruct (flt (snd x) (snd y)); [|reflexivity].
  rewrite IH. apply perm_swap.
Qed.

Lemma sorted_reverse_perm (l : list (str * float)) :
  Permutation (sorted_reverse l) l.
Proof.
  induction l as [|x l IH]; simpl; [reflexivity|].
  now rewrite insert_desc_perm, IH.
Qed.

Lemma insert_desc_sorted (x : str * float) (l : list (str * float)) :
  is_nan (snd x) = false -> no_nan l ->
  StronglySorted by_score_desc l ->
  StronglySorted by_score_desc (insert_desc x l).
Proof.
  intros Hx Hl. induction 1 as [|y l Hs IH Hy]; simpl.
  - repeat constructor.
  - inversion Hl as [|? ? Hny Hl']; subst.
    destruct (flt (snd x) (snd y)) eqn:E.
    + constructor; [now apply IH|].
      apply (Permutation_Forall (Permutation_sym (insert_desc_perm x l))).
      constructor; [|exact Hy].
      now apply flt_fle.
    + pose proof (not_flt_fle _ _ Hx Hny E) as Hle.
      constructor; [now constructor|].
      constructor; [exact Hle|].
      eapply Forall_impl; [|exact Hy].
      unfold by_score_desc. intros z Hz. now apply fle_trans with (snd y).
Qed.

Lemma sorted_reverse_sorted (l : list (str * float)) :
  no_nan l -> StronglySorted by_score_desc (sorted_reverse l).
Proof.
  induction 1 as [|x l Hx Hl IH]; simpl; [constructor|].
  apply insert_desc_sorted; [exact Hx| |exact IH].
  apply (Permutation_Forall (Permutation_sym (sorted_reverse_perm l))).
  exact Hl.
Qed.

Lemma filter_insert_desc (d : float) (x : str * float)
    (l : list (str * float)) :
  filter (score_is d) (insert_desc x l) = filter (score_is d) (x :: l).
Proof.
  induction l as [|y l IH]; [reflexivity|].
  simpl insert_desc. destruct (flt (snd x) (snd y)) eqn:E;
    [|reflexivity].
  change (filter (score_is d) (y :: insert_desc x l))
    with (if score_is d y then y :: filter (score_is d) (insert_desc x l)
          else filter (score_is d) (insert_desc x l)).
  rewrite IH. simpl.
  destruct (score_is d x) eqn:Ex; destruct (score_is d y) eqn:Ey;
    try reflexivity.
  unfold score_is in Ex, Ey.
  rewrite (same_score_not_flt d _ _ Ex Ey) in E. discriminate.
Qed.

(** Items of one score leave the sort in the order they entered it. *)
Lemma sorted_reverse_stable (d : float) (l : list (str * float)) :
  filter (score_is d) (sorted_reverse l) = filter (score_is d) l.
Proof.
  induction l as [|x l IH]; [reflexivity|].
  simpl sorted_reverse. rewrite filter_insert_desc. simpl. now rewrite IH.
Qed.

Lemma sorted_reverse_contract : SortedContract sorted_reverse.
Proof.
  constructor.
  - apply sorted_reverse_perm.
  - apply sorted_reverse_sorted.
  - intros l _ d. apply sorted_reverse_stable.
Qed.

(** *** The contract fixes the result when no key is NaN *)

Lemma stable_sorted_unique (l1 l2 : list (str * float)) :
  no_nan l1 -> Permutation l1 l2 ->
  StronglySorted by_score_desc l1 -> StronglySorted by_score_desc l2 ->
  (forall d, filter (score_is d) l1 = filter (score_is d) l2) ->
  l1 = l2.
Proof.
  intros Hn P S1; revert l2 Hn P;
    induction S1 as [|x l1 S1 IH Hx]; intros l2 Hn P S2 Hf.
  - apply Permutation_nil in P. now subst.
  - destruct l2 as [|y l2];
      [apply Permutation_sym, Permutation_nil in P; discriminate|].
    inversion S2 as [|? ? S2' Hy]; subst.
    inversion Hn as [|? ? Hnx Hn']; subst.
    assert (is_nan (snd y) = false) as Hny.
    { assert (In y (x :: l1)) as Iy
        by (apply (Permutation_in _ (Permutation_sym P)); now left).
      exact (proj1 (Forall_forall _ _) Hn y Iy). }
    assert (feq (snd y) (snd x) = true) as Hxy.
    { apply feq_fle.
      assert (In y (x :: l1)) as Iy
        by (apply (Permutation_in _ (Permutation_sym P)); now left).
      assert (In x (y :: l2)) as Ix
        by (apply (Permutation_in _ P); now left).
      rewrite Forall_forall in Hx, Hy. split.
      - destruct Iy as [<-|Iy]; [now apply fle_refl|apply (Hx y Iy)].
      - destruct Ix as [<-|Ix]; [now apply fle_refl|apply (Hy x Ix)]. }
    assert (x = y) as <-.
    { pose proof (Hf (snd x)) as E. simpl in E.
      assert (score_is (snd x) x = true) as Ex by now apply feq_refl.
      assert (score_is (snd x) y = true) as Ey by exact Hxy.
      rewrite Ex, Ey in E. now injection E. }
    f_equal. apply IH; try assumption.
    + now apply Permutation_cons_inv in P.
    + intros d. pose proof (Hf d) as E. simpl in E.
      destruct (score_is d x); [now injection E|exact E].
Qed.

Section Sorted.

Variable sorted : sort_fn.
Hypothesis sorted_ok : SortedContract sorted.

(** Without NaN, [sorted] returns what the sort of the examples returns. *)
Lemma sorted_without_nan (l : list (str * float)) :
  no_nan l -> sorted l = sorted_reverse l.
Proof.
  intros Hn.
  assert (no_nan (sorted l)) as Hn'.
  { apply (Permutation_Forall
             (Permutation_sym (sorted_permutes _ sorted_ok l))), Hn. }
  apply stable_sorted_unique.
  - exact Hn'.
  - rewrite (sorted_permutes _ sorted_ok), sorted_reverse_perm. reflexivity.
  - now apply sorted_orders.
  - now apply sorted_reverse_sorted.
  - intros d. rewrite (sorted_is_stable _ sorted_ok l Hn).
    now rewrite sorted_reverse_stable.
Qed.

End Sorted.

(** *** [forward], whole *)

(** [forward] returns, given an embedding function: its value and the one
    call it makes. *)
Lemma forward_eq (sorted : sort_fn) (self : TidbRM)
    (f : query_or_queries -> embeddings)
    (q : query_or_queries) (n : option Z) (w : World) :
  embedding_function self = Some f ->
  forward sorted self q n w
  = (Returns
       (mkPrediction
          (map (fun x => mkDotdict (fst x))
             (sorted_passages sorted
                (answer (tidb_vector_client self) (f q) (or_ n (top_k self)))))),
     w ++ [mkCall (f q) (or_ n (top_k self))]).
Proof.
  intros Hf. unfold forward, call, bind, query, ret. now rewrite Hf.
Qed.

Lemma descending_scores (l : list (str * float)) :
  StronglySorted by_score_desc l -> descending (map snd l).
Proof.
  unfold descending.
  induction 1 as [|y l Hl IH Hy]; simpl; constructor; [exact IH|].
  apply Forall_map. exact Hy.
Qed.

(** A descending list that holds NaN holds nothing else. *)
Lemma descending_nan (l : list float) :
  descending l -> In NaN l -> l = [NaN].
Proof.
  intros H Hin. inversion H as [|a l' _ Ha]; subst; [destruct Hin|].
  destruct l' as [|b l''].
  - destruct Hin as [->|[]]. reflexivity.
  - exfalso. inversion Ha as [|? ? Hb Hrest]; subst.
    destruct (fle_numbers _ _ Hb) as [_ Hna].
    destruct Hin as [->|Hin]; [discriminate Hna|].
    rewrite Forall_forall in Ha. apply Ha in Hin. discriminate Hin.
Qed.

Lemma ranked_without_nan_dict (results : list QueryResult) :
  ranked_without_nan results -> no_nan (passages_scores results).
Proof.
  intros H. apply Forall_forall. intros [p d] Hin.
  apply passages_scores_items in Hin. apply (H p d Hin).
Qed.

Lemma last_distance_row (results : list QueryResult) (p : str) (d : float) :
  last_distance results p = Some d ->
  exists res, In res results /\ document res = p /\ distance res = d.
Proof.
  unfold last_distance.
  destruct (find _ (rev results)) as [res|] eqn:E; [|discriminate].
  intros [= <-]. apply find_some in E as [Hin Hdoc].
  exists res. repeat split.
  - now apply in_rev.
  - now apply str_eqb_eq.
Qed.

Lemma without_nan_ranked (results : list QueryResult) :
  without_nan results -> ranked_without_nan results.
Proof.
  intros H p d Hd. apply last_distance_row in Hd as (res & Hin & _ & <-).
  revert res Hin. now apply Forall_forall.
Qed.

(** *** The claims *)

(** C8, as amended. When none of the distances by which the documents are
    ranked is NaN, [forward] sorts what the client's query returned: the
    passages of the prediction are the documents of the client's rows, each
    once, each with the distance of the last row that carries it, in the
    order of these distances, largest first. *)
Theorem forward_sorts_by_distance (sorted : sort_fn)
    (sorted_ok : SortedContract sorted) (self : TidbRM)
    (f : query_or_queries -> embeddings) (q : query_or_queries)
    (n : option Z) (w : World) :
  embedding_function self = Some f ->
  ranked_without_nan
    (answer (tidb_vector_client self) (f q) (or_ n (top_k self))) ->
  exists scored,
    forward sorted self q n w
    = (Returns (mkPrediction (map (fun x => mkDotdict (fst x)) scored)),
       w ++ [mkCall (f q) (or_ n (top_k self))])
    /\ (forall p d,
           In (p, d) scored <->
           last_distance
             (answer (tidb_vector_client self) (f q) (or_ n (top_k self))) p
           = Some d)
    /\ NoDup (map fst scored)
    /\ descending (map snd scored).
Proof.
  intros Hf Hnan.
  set (results := answer (tidb_vector_client self) (f q) (or_ n (top_k self)))
    in *.
  exists (sorted_passages sorted results).
  split; [now apply forward_eq|].
  pose proof (sorted_permutes _ sorted_ok (passages_scores results)) as Hperm.
  fold (sorted_passages sorted results) in Hperm.
  split; [|split].
  - intros p d. rewrite <- passages_scores_items. split.
    + apply Permutation_in, Hperm.
    + apply Permutation_in, Permutation_sym, Hperm.
  - apply (Permutation_NoDup (l := map fst (passages_scores results))).
    + apply Permutation_map, Permutation_sym, Hperm.
    + apply passages_scores_nodup.
  - apply descending_scores, (sorted_orders _ sorted_ok).
    now apply ranked_without_nan_dict.
Qed.

Lemma forward_sorts_by_distance_witness :
  forward sorted_reverse example_rm (OneQuery (lit "what is TiDB")) None []
  = (Returns (mkPrediction [ mkDotdict (lit "Vectors are lists");
                             mkDotdict (lit "TiDB is a database") ]),
     [mkCall (OneVector [Num 1; Num 0]) 3])
  /\ exists scored,
       forward sorted_reverse example_rm (OneQuery (lit "what is TiDB"))
         None []
       = (Returns (mkPrediction (map (fun x => mkDotdict (fst x)) scored)),
          [] ++ [mkCall (example_embedding (OneQuery (lit "what is TiDB")))
                   (or_ None (top_k example_rm))])
       /\ (forall p d, In (p, d) scored <->
                       last_distance example_rows p = Some d)
       /\ NoDup (map fst scored)
       /\ descending (map snd scored).
Proof.
  split; [reflexivity|].
  apply (forward_sorts_by_distance sorted_reverse sorted_reverse_contract
           example_rm example_embedding (OneQuery (lit "what is TiDB"))
           None [] eq_refl).
  apply without_nan_ranked. repeat constructor.
Defined.

(** C8, as stated, fails: when the client returns a row whose distance is
    NaN beside other rows, no order of the documents with their distances
    is descending, whatever [sorted] does. *)
Lemma forward_with_nan_not_descending :
  ~ exists sorted scored,
      SortedContract sorted
      /\ fst (forward sorted (rm_of rows_with_nan) example_question None [])
         = Returns (mkPrediction (map (fun x => mkDotdict (fst x)) scored))
      /\ (forall p d,
             In (p, d) scored <-> last_distance rows_with_nan p = Some d)
      /\ descending (map snd scored).
Proof.
  intros (sorted & scored & _ & _ & Hitems & Hdesc).
  assert (In (lit "b", NaN) scored) as Hb by (apply Hitems; reflexivity).
  assert (In (lit "a", Num (1 # 10)) scored) as Ha
    by (apply Hitems; reflexivity).
  apply (in_map snd) in Ha, Hb. simpl in Ha, Hb.
  rewrite (descending_nan _ Hdesc Hb) in Ha.
  destruct Ha as [Ha|[]]. discriminate Ha.
Qed.

(** The example retriever at work: three rows come back, the repeated text
    is kept once with its last distance, and the larger distance comes
    first. *)
Example forward_example :
  forward sorted_reverse example_rm (OneQuery (lit "what is TiDB")) None []
  = (Returns (mkPrediction [ mkDotdict (lit "Vectors are lists");
                             mkDotdict (lit "TiDB is a database") ]),
     [mkCall (OneVector [Num 1; Num 0]) 3]).
Proof. reflexivity. Qed.

(** C9. [forward] returns each document text once: the passages carry no
    text twice, they are the texts of the client's results, and the
    distance by which a text is ranked is the one of the last result that
    carries it. *)
Theorem forward_one_passage_per_document (sorted : sort_fn)
    (sorted_permutes : forall l, Permutation (sorted l) l) (self : TidbRM)
    (f : query_or_queries -> embeddings) (q : query_or_queries)
    (n : option Z) (w : World) :
  embedding_function self = Some f ->
  exists pred,
    fst (forward sorted self q n w) = Returns pred
    /\ passages pred
       = map (fun x => mkDotdict (fst x))
           (sorted_passages sorted
              (answer (tidb_vector_client self) (f q) (or_ n (top_k self))))
    /\ NoDup (map long_text (passages pred))
    /\ (forall p,
           In p (map long_text (passages pred)) <->
           exists res,
             In res (answer (tidb_vector_client self) (f q)
                       (or_ n (top_k self)))
             /\ document res = p)
    /\ (forall p d,
           In (p, d)
             (sorted_passages sorted
                (answer (tidb_vector_client self) (f q) (or_ n (top_k self))))
           <->
           last_distance
             (answer (tidb_vector_client self) (f q) (or_ n (top_k self))) p
           = Some d).
Proof.
  intros Hf. rewrite (forward_eq sorted self f q n w Hf). simpl.
  set (results := answer (tidb_vector_client self) (f q) (or_ n (top_k self))).
  eexists. split; [reflexivity|]. simpl. split; [reflexivity|].
  rewrite map_map. simpl.
  pose proof (sorted_permutes (passages_scores results)) as Hperm.
  fold (sorted_passages sorted results) in Hperm.
  split; [|split].
  - apply (Permutation_NoDup (l := map fst (passages_scores results))).
    + apply Permutation_map, Permutation_sym, Hperm.
    + apply passages_scores_nodup.
  - intros p. rewrite <- passages_scores_keys. split.
    + apply Permutation_in, Permutation_map, Hperm.
    + apply Permutation_in, Permutation_map, Permutation_sym, Hperm.
  - intros p d. rewrite <- passages_scores_items. split.
    + apply Permutation_in, Hperm.
    + apply Permutation_in, Permutation_sym, Hperm.
Qed.

Lemma forward_one_passage_per_document_witness :
  exists pred,
    fst (forward sorted_reverse example_rm (OneQuery (lit "what is TiDB"))
           None [])
    = Returns pred
    /\ map long_text (passages pred)
       = [lit "Vectors are lists"; lit "TiDB is a database"]
    /\ NoDup (map long_text (passages pred))
    /\ last_distance example_rows (lit "TiDB is a database")
       = Some (Num (5 # 10)).
Proof.
  destruct (forward_one_passage_per_document sorted_reverse
              sorted_reverse_perm example_rm example_embedding
              (OneQuery (lit "what is TiDB")) None [] eq_refl)
    as (pred & Hrun & Hpass & Hnodup & Hkeys & Hitems).
  exists pred. split; [exact Hrun|]. split; [|split].
  - rewrite Hpass. reflexivity.
  - exact Hnodup.
  - apply (Hitems (lit "TiDB is a database") (Num (5 # 10))).
    vm_compute. right. now left.
Defined.

(** C10. With [k=0], [forward] queries the client with [self.top_k], the
    [k] of the constructor (3 when left out), exactly as when [k] is not
    given: zero passages cannot be asked for through [k]. *)
Theorem forward_k_zero_uses_top_k (sorted : sort_fn) (self : TidbRM)
    (f : query_or_queries -> embeddings) (q : query_or_queries) (w : World) :
  embedding_function self = Some f ->
  snd (forward sorted self q (Some 0%Z) w) = w ++ [mkCall (f q) (top_k self)]
  /\ forward sorted self q (Some 0%Z) w = forward sorted self q None w
  /\ (forall client ef, top_k (TidbRM_init client ef None) = 3%Z)
  /\ (forall client ef n, top_k (TidbRM_init client ef (Some n)) = n).
Proof.
  intros Hf. rewrite !(forward_eq sorted self f q _ w Hf). simpl.
  repeat split.
Qed.

Lemma forward_k_zero_uses_top_k_witness :
  snd (forward sorted_reverse example_rm (OneQuery (lit "what is TiDB"))
         (Some 0%Z) [])
  = [mkCall (OneVector [Num 1; Num 0]) 3]
  /\ fst (forward sorted_reverse example_rm (OneQuery (lit "what is TiDB"))
            (Some 0%Z) [])
     = Returns (mkPrediction [ mkDotdict (lit "Vectors are lists");
                               mkDotdict (lit "TiDB is a database") ]).
Proof.
  destruct (forward_k_zero_uses_top_k sorted_reverse example_rm
              example_embedding (OneQuery (lit "what is TiDB")) [] eq_refl)
    as (Hcall & Hsame & _).
  split.
  - rewrite Hcall. reflexivity.
  - rewrite Hsame. reflexivity.
Defined.

End DspyDemoFacts.

(** ** More facts about the retriever and the RAG module *)

Module RetrieverFacts.
Import DspyDemo DspyDemoFacts.

(** *** The dict, key by key *)

Lemma setitem_fresh (d : dict) (key : str) (v : float) :
  ~ In key (map fst d) -> setitem d key v = d ++ [(key, v)].
Proof.
  induction d as [|[key' v'] d IH]; simpl; intros H; [reflexivity|].
  destruct (str_eqb key' key) eqn:E.
  - apply str_eqb_eq in E. tauto.
  - rewrite IH; tauto.
Qed.

Lemma setitem_present (d : dict) (key : str) (v : float) :
  In key (map fst d) -> map fst (setitem d key v) = map fst d.
Proof.
  induction d as [|[key' v'] d IH]; simpl; intros H; [tauto|].
  destruct (str_eqb key' key) eqn:E; simpl; [reflexivity|].
  apply str_eqb_neq in E. rewrite IH; [reflexivity|tauto].
Qed.

Lemma setitem_length (d : dict) (key : str) (v : float) :
  length (setitem d key v)
  = if in_dec (list_eq_dec ascii_dec) key (map fst d)
    then length d else S (length d).
Proof.
  destruct (in_dec (list_eq_dec ascii_dec) key (map fst d)) as [H|H].
  - rewrite <- (length_map fst), (setitem_present _ _ _ H).
    apply length_map.
  - rewrite (setitem_fresh _ _ _ H), length_app. simpl. lia.
Qed.

Lemma passages_scores_distinct (results : list QueryResult) :
  NoDup (map document results) ->
  passages_scores results = map scored results.
Proof.
  induction results as [|res results IH] using rev_ind; intros H.
  - reflexivity.
  - rewrite map_app in H. simpl in H.
    rewrite passages_scores_snoc, map_app. simpl.
    pose proof (NoDup_remove_2 _ _ _ H) as Hnew. rewrite app_nil_r in Hnew.
    apply NoDup_remove_1 in H. rewrite app_nil_r in H.
    rewrite (IH H). apply setitem_fresh.
    rewrite map_map. exact Hnew.
Qed.

Lemma passages_scores_length (results : list QueryResult) :
  length (passages_scores results) <= length results
  /\ (length (passages_scores results) = length results <->
      NoDup (map document results)).
Proof.
  induction results as [|res results [IHle IH]] using rev_ind.
  - simpl. repeat split; try lia. constructor.
  - rewrite passages_scores_snoc, setitem_length, length_app, map_app.
    simpl.
    destruct (in_dec (list_eq_dec ascii_dec) (document res)
                (map fst (passages_scores results)))
      as [Hin|Hnew].
    + split; [lia|]. split; [lia|].
      intros H. apply NoDup_remove_2 in H. rewrite app_nil_r in H.
      apply passages_scores_keys in Hin as (r & Hr & Hdoc).
      destruct H. rewrite <- Hdoc. now apply in_map.
    + split; [lia|]. split.
      * intros H. assert (NoDup (map document results)) as Hnd
          by (apply IH; lia).
        apply NoDup_rev in Hnd.
        rewrite <- (rev_involutive (map document results ++ _)).
        apply NoDup_rev. rewrite rev_app_distr. simpl.
        constructor; [|exact Hnd].
        rewrite <- in_rev. intros Hdoc. apply Hnew.
        apply passages_scores_keys. apply in_map_iff in Hdoc.
        destruct Hdoc as (r & Hdoc & Hr). now exists r.
      * intros H. apply NoDup_remove_1 in H. rewrite app_nil_r in H.
        apply IH in H. lia.
Qed.

(** *** The sort on lists that are already in order *)

Lemma insert_desc_last (x : str * float) (l : list (str * float)) :
  Forall (fun y => flt (snd x) (snd y) = true) l ->
  insert_desc x l = l ++ [x].
Proof.
  induction 1 as [|y l Hy _ IH]; simpl; [reflexivity|].
  now rewrite Hy, IH.
Qed.

Lemma sorted_reverse_ascending (l : list (str * float)) :
  StronglySorted (fun a b => flt (snd a) (snd b) = true) l ->
  sorted_reverse l = rev l.
Proof.
  induction 1 as [|x l _ IH Hx]; simpl; [reflexivity|].
  rewrite IH. apply insert_desc_last.
  apply Forall_forall. intros y Hy. apply in_rev in Hy.
  revert y Hy. now apply Forall_forall.
Qed.

Lemma sorted_reverse_descending (l : list (str * float)) :
  StronglySorted by_score_desc l -> sorted_reverse l = l.
Proof.
  induction 1 as [|x l _ IH Hx]; simpl; [reflexivity|].
  rewrite IH. destruct Hx as [|y l Hy _]; simpl; [reflexivity|].
  unfold by_score_desc in Hy. now rewrite (fle_not_flt _ _ Hy).
Qed.

Lemma sorted_map_scored (R : float -> float -> Prop)
    (results : list QueryResult) :
  StronglySorted (fun a b => R (distance a) (distance b)) results ->
  StronglySorted (fun a b => R (snd a) (snd b)) (map scored results).
Proof.
  induction 1 as [|x l _ IH Hx]; simpl; constructor; [exact IH|].
  apply Forall_map. exact Hx.
Qed.

(** Rows that a comparison relates pairwise carry no NaN, unless there is
    one row only. *)
Lemma ordered_rows_numbers (R : float -> float -> Prop)
    (results : list QueryResult) :
  (forall x y, R x y -> is_nan x = false /\ is_nan y = false) ->
  StronglySorted (fun a b => R (distance a) (distance b)) results ->
  length results <= 1 \/ without_nan results.
Proof.
  intros HR H. destruct H as [|a l Hl Ha]; [left; simpl; lia|].
  destruct l as [|b l]; [left; simpl; lia|]. right.
  inversion Ha as [|? ? Hab _]; subst.
  constructor; [apply (HR _ _ Hab)|].
  eapply Forall_impl; [|exact Ha]. intros c Hc. apply (HR _ _ Hc).
Qed.

Lemma without_nan_scored (results : list QueryResult) :
  without_nan results -> no_nan (map scored results).
Proof. intros H. apply Forall_map. exact H. Qed.

Section Sorted.

Variable sorted : sort_fn.
Hypothesis sorted_ok : SortedContract sorted.

(** On one row or none, and on rows without NaN, [sorted] returns what the
    sort of the examples returns. *)
Lemma sorted_of_ordered_rows (results : list QueryResult) :
  length results <= 1 \/ without_nan results ->
  sorted (map scored results) = sorted_reverse (map scored results).
Proof.
  intros [H|H].
  - pose proof (sorted_permutes _ sorted_ok (map scored results)) as P.
    destruct results as [|a [|b l]]; simpl in *; try lia.
    + apply Permutation_sym, Permutation_nil in P. now rewrite P.
    + apply Permutation_sym, Permutation_length_1_inv in P.
      now rewrite P.
  - apply (sorted_without_nan sorted sorted_ok), without_nan_scored, H.
Qed.

End Sorted.

(** Two lists in descending order with the same items are the same list,
    when no two items share a score. *)
Lemma sorted_unique (l1 l2 : list (str * float)) :
  no_nan l1 ->
  StronglySorted by_score_desc l1 -> StronglySorted by_score_desc l2 ->
  Permutation l1 l2 ->
  (forall x y, In x l1 -> In y l1 -> feq (snd x) (snd y) = true -> x = y) ->
  l1 = l2.
Proof.
  intros Hn S1; revert l2 Hn;
    induction S1 as [|x l1 S1 IH Hx]; intros l2 Hn S2 P Hinj.
  - apply Permutation_nil in P. now subst.
  - destruct l2 as [|y l2];
      [apply Permutation_sym, Permutation_nil in P; discriminate|].
    inversion S2 as [|? ? S2' Hy]; subst.
    inversion Hn as [|? ? Hnx Hn']; subst.
    assert (x = y) as ->.
    { assert (In y (x :: l1)) as Iy
        by (apply (Permutation_in _ (Permutation_sym P)); now left).
      assert (In x (y :: l2)) as Ix
        by (apply (Permutation_in _ P); now left).
      destruct Iy as [E|Iy]; [exact E|].
      destruct Ix as [E|Ix]; [now symmetry|].
      rewrite Forall_forall in Hx, Hy.
      apply Hinj; [now left|now right|].
      apply feq_fle. split; [apply (Hy x Ix)|apply (Hx y Iy)]. }
    f_equal. apply IH; try assumption.
    + now apply Permutation_cons_inv in P.
    + intros a b Ia Ib. apply Hinj; now right.
Qed.

(** *** Order among the items *)

Lemma filter_split {A : Type} (f : A -> bool) (l l1 rest : list A) (a : A) :
  filter f l = l1 ++ a :: rest ->
  exists l' l'', l = l' ++ a :: l'' /\ filter f l'' = rest.
Proof.
  revert l1; induction l as [|c l IH]; simpl; intros l1 H.
  - now destruct l1.
  - destruct (f c).
    + destruct l1 as [|c' l1]; simpl in H; injection H as -> H.
      * now exists [], l.
      * destruct (IH _ H) as (l' & l'' & -> & Hr). now exists (c' :: l'), l''.
    + destruct (IH _ H) as (l' & l'' & -> & Hr). now exists (c :: l'), l''.
Qed.

Lemma precedes_filter_elim {A : Type} (f : A -> bool) (a b : A) (l : list A) :
  precedes a b (filter f l) -> precedes a b l.
Proof.
  intros (l1 & l2 & l3 & H).
  destruct (filter_split f l l1 _ a H) as (l' & l'' & -> & H').
  destruct (filter_split f l'' l2 _ b H') as (m' & m'' & -> & _).
  now exists l', m', m''.
Qed.

Lemma precedes_filter_intro {A : Type} (f : A -> bool) (a b : A) (l : list A) :
  precedes a b l -> f a = true -> f b = true -> precedes a b (filter f l).
Proof.
  intros (l1 & l2 & l3 & ->) Ha Hb.
  exists (filter f l1), (filter f l2), (filter f l3).
  rewrite filter_app. simpl. rewrite Ha, filter_app. simpl. now rewrite Hb.
Qed.

Lemma precedes_map {A B : Type} (g : A -> B) (a b : A) (l : list A) :
  precedes a b l -> precedes (g a) (g b) (map g l).
Proof.
  intros (l1 & l2 & l3 & ->).
  exists (map g l1), (map g l2), (map g l3).
  now rewrite map_app, map_cons, map_app, map_cons.
Qed.

Lemma precedes_map_inv {A B : Type} (g : A -> B) (x y : B) (l : list A) :
  precedes x y (map g l) ->
  exists a b, g a = x /\ g b = y /\ precedes a b l.
Proof.
  intros (l1 & l2 & l3 & H).
  apply map_eq_app in H as (m1 & m & -> & _ & H).
  apply map_eq_cons in H as (a & m' & -> & Ha & H).
  apply map_eq_app in H as (m2 & m'' & -> & _ & H).
  apply map_eq_cons in H as (b & m3 & -> & Hb & _).
  exists a, b. repeat split; try assumption. now exists m1, m2, m3.
Qed.

(** *** The order of the keys of the dict *)

Lemma setitem_keeps_order (p p' : str) (d : dict) (key : str) (v : float) :
  In p (map fst d) /\ (In p' (map fst d) -> precedes p p' (map fst d)) ->
  In p (map fst (setitem d key v))
  /\ (In p' (map fst (setitem d key v)) ->
      precedes p p' (map fst (setitem d key v))).
Proof.
  intros [Hp Hord].
  destruct (in_dec (list_eq_dec ascii_dec) key (map fst d)) as [H|H].
  - rewrite (setitem_present _ _ _ H). now split.
  - rewrite (setitem_fresh _ _ _ H), map_app. simpl. split.
    + apply in_or_app. now left.
    + intros Hp'. apply in_app_or in Hp' as [Hp'|[<-|[]]].
      * destruct (Hord Hp') as (l1 & l2 & l3 & ->).
        exists l1, l2, (l3 ++ [key]).
        now rewrite <- !app_assoc, <- !app_comm_cons, <- app_assoc.
      * destruct (in_split _ _ Hp) as (l1 & l2 & ->).
        exists l1, l2, []. now rewrite <- app_assoc.
Qed.

Lemma fold_keeps_order (p p' : str) (results : list QueryResult) (d : dict) :
  In p (map fst d) /\ (In p' (map fst d) -> precedes p p' (map fst d)) ->
  let d' := fold_left (fun d res => setitem d (document res) (distance res))
              results d in
  In p (map fst d') /\ (In p' (map fst d') -> precedes p p' (map fst d')).
Proof.
  revert d; induction results as [|res results IH]; simpl; intros d H;
    [exact H|].
  apply IH. now apply setitem_keeps_order.
Qed.

(** A document met before another one has its key before the other's. *)
Lemma first_met_first_key (r1 r2 : list QueryResult) (res : QueryResult)
    (p' : str) :
  ~ In p' (map document r1) -> document res <> p' ->
  In p' (map fst (passages_scores (r1 ++ res :: r2))) ->
  precedes (document res) p' (map fst (passages_scores (r1 ++ res :: r2))).
Proof.
  intros Hr1 Hne. unfold passages_scores.
  rewrite fold_left_app. simpl. fold (passages_scores r1).
  apply fold_keeps_order. split.
  - apply setitem_keys. now left.
  - intros H. apply setitem_keys in H as [H|H]; [congruence|].
    apply passages_scores_keys in H as (r & Hr & Hdoc).
    destruct Hr1. rewrite <- Hdoc. now apply in_map.
Qed.

(** *** [TidbRM.forward] *)

Lemma forward_results (sorted : sort_fn) (self : TidbRM)
    (f : query_or_queries -> embeddings)
    (q : query_or_queries) (n : option Z) (w : World) :
  embedding_function self = Some f ->
  forward sorted self q n w
  = (Returns (mkPrediction
                (map (fun x => mkDotdict (fst x))
                   (sorted_passages sorted (results_of self f q n)))),
     w ++ [mkCall (f q) (or_ n (top_k self))]).
Proof. apply forward_eq. Qed.

Lemma texts_of_ranking (l : list (str * float)) :
  texts (mkPrediction (map (fun x => mkDotdict (fst x)) l)) = map fst l.
Proof. unfold texts. simpl. rewrite map_map. reflexivity. Qed.

Lemma flt_numbers (x y : float) :
  flt x y = true -> is_nan x = false /\ is_nan y = false.
Proof. intros H. now apply fle_numbers, flt_fle. Qed.

Lemma fle_numbers_swap (x y : float) :
  fle y x = true -> is_nan x = false /\ is_nan y = false.
Proof. intros H. apply fle_numbers in H. tauto. Qed.

(** X1. Without an embedding function [forward] raises [TypeError] at its
    first statement, before the client is asked anything. *)
Theorem forward_without_embedding_function (sorted : sort_fn) (self : TidbRM)
    (q : query_or_queries) (n : option Z) (w : World) :
  embedding_function self = None ->
  forward sorted self q n w = (Raises TypeError, w).
Proof.
  intros H. unfold forward, call, bind, raise. now rewrite H.
Qed.

Lemma forward_without_embedding_function_witness :
  forward sorted_reverse (TidbRM_init example_client None (Some 5%Z))
    example_question (Some 2%Z) []
  = (Raises TypeError, []).
Proof.
  apply forward_without_embedding_function. reflexivity.
Defined.

(** X2. [forward] makes exactly one client call, with the embedding of the
    query. A [k] other than 0 goes to the client as it is, negative ones
    too; and a retriever whose [top_k] is not 0 never asks the client for 0
    rows. *)
Theorem forward_never_asks_for_zero (sorted : sort_fn) (self : TidbRM)
    (f : query_or_queries -> embeddings) (q : query_or_queries)
    (n : option Z) (w : World) :
  embedding_function self = Some f ->
  exists c,
    snd (forward sorted self q n w) = w ++ [c]
    /\ query_vector c = f q
    /\ (forall m, n = Some m -> m <> 0%Z -> k c = m)
    /\ (top_k self <> 0%Z -> k c <> 0%Z).
Proof.
  intros Hf. rewrite (forward_eq sorted self f q n w Hf).
  eexists. split; [reflexivity|]. simpl. split; [reflexivity|]. split.
  - intros m -> Hm. simpl. destruct (Z.eqb_spec m 0); congruence.
  - intros Htop. destruct n as [m|]; simpl; [|exact Htop].
    destruct (Z.eqb_spec m 0); congruence.
Qed.

Lemma forward_never_asks_for_zero_witness :
  exists c,
    snd (forward sorted_reverse example_rm example_question (Some (-2)%Z) [])
    = [] ++ [c]
    /\ k c = (-2)%Z /\ k c <> 0%Z.
Proof.
  destruct (forward_never_asks_for_zero sorted_reverse example_rm
              example_embedding example_question (Some (-2)%Z) [] eq_refl)
    as (c & Hw & _ & Hk & Hnz).
  exists c. split; [exact Hw|]. split.
  - apply (Hk (-2)%Z); [reflexivity|discriminate].
  - apply Hnz. discriminate.
Defined.

(** X3. [forward] never returns more passages than the client returned
    rows; it returns as many exactly when no two rows carry the same
    document, and none exactly when the client returned none. *)
Theorem forward_passage_count (sorted : sort_fn)
    (sorted_permutes : forall l, Permutation (sorted l) l) (self : TidbRM)
    (f : query_or_queries -> embeddings) (q : query_or_queries)
    (n : option Z) (w : World) :
  embedding_function self = Some f ->
  exists pred,
    fst (forward sorted self q n w) = Returns pred
    /\ length (passages pred) <= length (results_of self f q n)
    /\ (length (passages pred) = length (results_of self f q n) <->
        NoDup (map document (results_of self f q n)))
    /\ (passages pred = [] <-> results_of self f q n = []).
Proof.
  intros Hf. rewrite (forward_results sorted self f q n w Hf).
  eexists. split; [reflexivity|]. simpl.
  set (results := results_of self f q n).
  assert (length (map (fun x => mkDotdict (fst x))
                    (sorted_passages sorted results))
          = length (passages_scores results)) as L.
  { rewrite length_map. apply Permutation_length, sorted_permutes. }
  rewrite L. destruct (passages_scores_length results) as [Hle Hiff].
  split; [exact Hle|]. split; [exact Hiff|]. split.
  - intros H. rewrite H in L. simpl in L.
    destruct results as [|res results]; [reflexivity|].
    assert (In (document res) (map fst (passages_scores (res :: results))))
      as Hin by (apply passages_scores_keys; exists res; split;
                 [now left|reflexivity]).
    destruct (passages_scores (res :: results)); [destruct Hin|discriminate].
  - intros H. unfold sorted_passages. rewrite H.
    pose proof (sorted_permutes []) as P.
    apply Permutation_sym, Permutation_nil in P.
    change (passages_scores []) with (@nil (str * float)).
    now rewrite P.
Qed.

Lemma forward_passage_count_witness :
  exists pred,
    fst (forward sorted_reverse example_rm example_question None [])
    = Returns pred
    /\ length (passages pred) <= 3
    /\ length (passages pred) <> 3.
Proof.
  destruct (forward_passage_count sorted_reverse sorted_reverse_perm
              example_rm example_embedding example_question None [] eq_refl)
    as (pred & Hrun & Hle & Hiff & _).
  exists pred. split; [exact Hrun|]. split; [exact Hle|].
  intros H. apply Hiff in H. vm_compute in H.
  inversion H as [|? ? Hnot _]. apply Hnot. right. now left.
Defined.

(** X4. When the client returns its rows nearest first, each with its own
    document, [forward] returns their documents in the reverse order. *)
Theorem forward_reverses_nearest_first (sorted : sort_fn)
    (sorted_ok : SortedContract sorted) (self : TidbRM)
    (f : query_or_queries -> embeddings) (q : query_or_queries)
    (n : option Z) (w : World) :
  embedding_function self = Some f ->
  NoDup (map document (results_of self f q n)) ->
  nearest_first (results_of self f q n) ->
  fst (forward sorted self q n w)
  = Returns (mkPrediction
               (map (fun res => mkDotdict (document res))
                  (rev (results_of self f q n)))).
Proof.
  intros Hf Hnd Hasc. rewrite (forward_results sorted self f q n w Hf). simpl.
  unfold sorted_passages. rewrite (passages_scores_distinct _ Hnd).
  rewrite (sorted_of_ordered_rows sorted sorted_ok).
  - rewrite sorted_reverse_ascending.
    + now rewrite <- map_rev, map_map.
    + apply (sorted_map_scored (fun x y => flt x y = true)), Hasc.
  - apply (ordered_rows_numbers (fun x y => flt x y = true));
      [exact flt_numbers|exact Hasc].
Qed.

Lemma forward_reverses_nearest_first_witness :
  fst (forward sorted_reverse (rm_of rows_nearest_first) example_question
         None [])
  = Returns (mkPrediction [ mkDotdict (lit "gamma"); mkDotdict (lit "beta");
                            mkDotdict (lit "alpha") ]).
Proof.
  rewrite (forward_reverses_nearest_first sorted_reverse
             sorted_reverse_contract (rm_of rows_nearest_first)
             example_embedding example_question None [] eq_refl).
  - reflexivity.
  - repeat constructor; simpl; intuition discriminate.
  - repeat constructor.
Defined.

(** X5. When the client returns its rows farthest first, each with its own
    document, [forward] returns their documents in the same order, rows of
    equal distance included. *)
Theorem forward_keeps_farthest_first (sorted : sort_fn)
    (sorted_ok : SortedContract sorted) (self : TidbRM)
    (f : query_or_queries -> embeddings) (q : query_or_queries)
    (n : option Z) (w : World) :
  embedding_function self = Some f ->
  NoDup (map document (results_of self f q n)) ->
  farthest_first (results_of self f q n) ->
  fst (forward sorted self q n w)
  = Returns (mkPrediction
               (map (fun res => mkDotdict (document res))
                  (results_of self f q n))).
Proof.
  intros Hf Hnd Hdesc. rewrite (forward_results sorted self f q n w Hf). simpl.
  unfold sorted_passages. rewrite (passages_scores_distinct _ Hnd).
  rewrite (sorted_of_ordered_rows sorted sorted_ok).
  - rewrite sorted_reverse_descending.
    + now rewrite map_map.
    + apply (sorted_map_scored (fun x y => fle y x = true)), Hdesc.
  - apply (ordered_rows_numbers (fun x y => fle y x = true));
      [exact fle_numbers_swap|exact Hdesc].
Qed.

Lemma forward_keeps_farthest_first_witness :
  fst (forward sorted_reverse (rm_of (rev rows_nearest_first))
         example_question None [])
  = Returns (mkPrediction [ mkDotdict (lit "gamma"); mkDotdict (lit "beta");
                            mkDotdict (lit "alpha") ]).
Proof.
  rewrite (forward_keeps_farthest_first sorted_reverse
             sorted_reverse_contract (rm_of (rev rows_nearest_first))
             example_embedding example_question None [] eq_refl).
  - reflexivity.
  - repeat constructor; simpl; intuition discriminate.
  - repeat constructor.
Defined.

(** X6. When none of the distances by which the documents are ranked is
    NaN, ties keep the order of first appearance: of two documents ranked
    with equal distances, the one the client returned first (before any row
    of the other) comes first among the passages. *)
Theorem forward_ties_keep_first_appearance (sorted : sort_fn)
    (sorted_ok : SortedContract sorted) (self : TidbRM)
    (f : query_or_queries -> embeddings) (q : query_or_queries)
    (n : option Z) (w : World)
    (r1 r2 : list QueryResult) (res : QueryResult) (p' : str)
    (d d' : float) :
  embedding_function self = Some f ->
  ranked_without_nan (results_of self f q n) ->
  results_of self f q n = r1 ++ res :: r2 ->
  ~ In p' (map document r1) ->
  document res <> p' ->
  last_distance (results_of self f q n) (document res) = Some d ->
  last_distance (results_of self f q n) p' = Some d' ->
  feq d d' = true ->
  exists pred,
    fst (forward sorted self q n w) = Returns pred
    /\ precedes (document res) p' (texts pred).
Proof.
  intros Hf Hnan Hres Hr1 Hne Hd Hd' Heq.
  rewrite (forward_results sorted self f q n w Hf).
  eexists. split; [reflexivity|]. rewrite texts_of_ranking.
  set (results := results_of self f q n) in *.
  assert (precedes (document res, d) (p', d') (passages_scores results)) as HP.
  { assert (In p' (map fst (passages_scores results))) as Hin.
    { apply passages_scores_items in Hd'.
      now apply (in_map fst) in Hd'. }
    rewrite Hres in Hin.
    apply (first_met_first_key r1 r2 res p' Hr1 Hne) in Hin.
    rewrite <- Hres in Hin.
    apply precedes_map_inv in Hin as ([p1 x1] & [p2 x2] & E1 & E2 & HP).
    simpl in E1, E2; subst p1 p2.
    assert (In (document res, x1) (passages_scores results)
            /\ In (p', x2) (passages_scores results)) as [I1 I2].
    { destruct HP as (l1 & l2 & l3 & ->). split.
      - apply in_or_app. right. now left.
      - apply in_or_app. right. right. apply in_or_app. right. now left. }
    apply passages_scores_items in I1, I2.
    assert (x1 = d) as -> by congruence.
    assert (x2 = d') as -> by congruence.
    exact HP. }
  apply (precedes_map fst (document res, d) (p', d')).
  apply (precedes_filter_elim (score_is d)).
  unfold sorted_passages.
  rewrite (sorted_is_stable _ sorted_ok _ (ranked_without_nan_dict _ Hnan)).
  apply precedes_filter_intro; [exact HP| |]; unfold score_is; simpl.
  - apply feq_refl. apply feq_fle in Heq as [Hle _].
    now apply fle_numbers in Hle.
  - now apply feq_sym.
Qed.

Lemma forward_ties_keep_first_appearance_witness :
  exists pred,
    fst (forward sorted_reverse (rm_of rows_with_tie) example_question
           None [])
    = Returns pred
    /\ precedes (lit "alpha") (lit "gamma") (texts pred).
Proof.
  apply (forward_ties_keep_first_appearance sorted_reverse
           sorted_reverse_contract (rm_of rows_with_tie)
           example_embedding example_question None []
           [] [ mkQueryResult (lit "beta") [] (Num (9 # 10));
                mkQueryResult (lit "gamma") [] (Num (1 # 2)) ]
           (mkQueryResult (lit "alpha") [] (Num (5 # 10)))
           (lit "gamma") (Num (5 # 10)) (Num (1 # 2))).
  - reflexivity.
  - apply without_nan_ranked. repeat constructor.
  - reflexivity.
  - simpl. tauto.
  - discriminate.
  - reflexivity.
  - reflexivity.
  - reflexivity.
Defined.

(** X7. When no row has the distance NaN and no two rows share a document
    or a distance, the passages do not depend on the order in which the
    client returns the rows. *)
Theorem forward_order_independent (sorted : sort_fn)
    (sorted_ok : SortedContract sorted) (self self' : TidbRM)
    (f f' : query_or_queries -> embeddings) (q q' : query_or_queries)
    (n n' : option Z) (w w' : World) :
  embedding_function self = Some f ->
  embedding_function self' = Some f' ->
  Permutation (results_of self f q n) (results_of self' f' q' n') ->
  without_nan (results_of self f q n) ->
  NoDup (map document (results_of self f q n)) ->
  distinct_distances (results_of self f q n) ->
  fst (forward sorted self q n w) = fst (forward sorted self' q' n' w').
Proof.
  intros Hf Hf' P Hnan Hnd Hdist.
  rewrite (forward_results sorted self f q n w Hf).
  rewrite (forward_results sorted self' f' q' n' w' Hf'). simpl.
  set (results := results_of self f q n) in *.
  set (results' := results_of self' f' q' n') in *.
  do 3 f_equal. unfold sorted_passages.
  rewrite (passages_scores_distinct _ Hnd).
  rewrite (passages_scores_distinct results').
  2:{ apply (Permutation_NoDup (l := map document results)); [|exact Hnd].
      now apply Permutation_map. }
  assert (without_nan results') as Hnan'
    by (apply (Permutation_Forall P), Hnan).
  rewrite !(sorted_without_nan sorted sorted_ok);
    try now apply without_nan_scored.
  apply sorted_unique.
  - apply (Permutation_Forall
             (Permutation_sym (sorted_reverse_perm _))).
    now apply without_nan_scored.
  - now apply sorted_reverse_sorted, without_nan_scored.
  - now apply sorted_reverse_sorted, without_nan_scored.
  - rewrite !sorted_reverse_perm. now apply Permutation_map.
  - intros x y Hx Hy Hxy.
    apply (Permutation_in _ (sorted_reverse_perm _)) in Hx, Hy.
    apply in_map_iff in Hx as (a & <- & Ha).
    apply in_map_iff in Hy as (b & <- & Hb).
    now rewrite (Hdist a b Ha Hb Hxy).
Qed.

Lemma forward_order_independent_witness :
  fst (forward sorted_reverse (rm_of rows_nearest_first) example_question
         None [])
  = fst (forward sorted_reverse (rm_of (rev rows_nearest_first))
           example_question (Some 7%Z) []).
Proof.
  apply (forward_order_independent sorted_reverse sorted_reverse_contract
           _ _ example_embedding example_embedding).
  - reflexivity.
  - reflexivity.
  - apply Permutation_rev.
  - repeat constructor.
  - repeat constructor; simpl; intuition discriminate.
  - intros a b Ha Hb. simpl in Ha, Hb.
    destruct Ha as [<-|[<-|[<-|[]]]]; destruct Hb as [<-|[<-|[<-|[]]]];
      intros H; try reflexivity; vm_compute in H; discriminate H.
Defined.

(** *** [RAG.forward] *)

(** X8. [RAG.forward] over a [TidbRM] with an embedding function: the
    client is asked once, for [top_k] rows, before the generator runs; the
    generator is given the ranked passages and the question; the context of
    the prediction is the ranked texts and its answer is the generator's;
    an exception of the generator is the exception of [RAG.forward]. *)
Theorem rag_forward_composes (sorted : sort_fn) (rm : TidbRM)
    (f : query_or_queries -> embeddings)
    (chain_of_thought : list dotdict -> query_or_queries -> Py World str)
    (question : query_or_queries) (w : World) :
  embedding_function rm = Some f ->
  RagModule.forward (RagModule.RAG_init sorted rm chain_of_thought) question w
  = match
      chain_of_thought
        (map (fun x => mkDotdict (fst x))
           (sorted_passages sorted (results_of rm f question None)))
        question
        (w ++ [mkCall (f question) (top_k rm)])
    with
    | (Returns a, w') =>
        (Returns
           (RagModule.mkPrediction
              (map fst
                 (sorted_passages sorted (results_of rm f question None)))
              a),
         w')
    | (Raises e, w') => (Raises e, w')
    end.
Proof.
  intros Hf.
  unfold RagModule.forward, RagModule.RAG_init, RagModule.Retrieve_call.
  simpl. unfold bind at 1.
  rewrite (forward_results sorted rm f question None w Hf). simpl.
  unfold bind, ret.
  destruct (chain_of_thought _ question _) as [[a|e] w']; [|reflexivity].
  now rewrite map_map.
Qed.

Lemma rag_forward_composes_witness :
  RagModule.forward
    (RagModule.RAG_init sorted_reverse example_rm RagModule.example_generator)
    example_question []
  = (Returns
       (RagModule.mkPrediction
          [lit "Vectors are lists"; lit "TiDB is a database"]
          (lit "Vectors are lists")),
     [mkCall (OneVector [Num 1; Num 0]) 3])
  /\ RagModule.forward
       (RagModule.RAG_init sorted_reverse (rm_of [])
          RagModule.example_generator)
       example_question []
     = (Raises ValueError, [mkCall (OneVector [Num 1; Num 0]) 3]).
Proof.
  split.
  - rewrite (rag_forward_composes sorted_reverse example_rm example_embedding
               RagModule.example_generator example_question [] eq_refl).
    reflexivity.
  - rewrite (rag_forward_composes sorted_reverse (rm_of []) example_embedding
               RagModule.example_generator example_question [] eq_refl).
    reflexivity.
Defined.

(** X9. [RAG.forward] over a [TidbRM] without an embedding function raises
    [TypeError]; neither the client nor the generator is reached. *)
Theorem rag_forward_without_embedding_function (sorted : sort_fn)
    (rm : TidbRM)
    (chain_of_thought : list dotdict -> query_or_queries -> Py World str)
    (question : query_or_queries) (w : World) :
  embedding_function rm = None ->
  RagModule.forward (RagModule.RAG_init sorted rm chain_of_thought) question w
  = (Raises TypeError, w).
Proof.
  intros H.
  unfold RagModule.forward, RagModule.RAG_init, RagModule.Retrieve_call.
  simpl. unfold bind at 1.
  unfold forward, call, bind, raise. now rewrite H.
Qed.

Lemma rag_forward_without_embedding_function_witness :
  RagModule.forward
    (RagModule.RAG_init sorted_reverse
       (TidbRM_init example_client None None)
       RagModule.example_generator)
    example_question []
  = (Raises TypeError, []).
Proof.
  apply rag_forward_without_embedding_function. reflexivity.
Defined.

End RetrieverFacts.
